(** * funq client models: a shallow embedding of [client/funq/models.py]

    The development follows the layout of the Python module:
    tree items and their traversal, the metaclass that dispatches on the
    reported C++ class chain, remote objects with their property proxy,
    widgets, model items with named-path resolution, graphics items and
    the combobox.  Remote calls go through a command channel whose far
    end is an arbitrary deterministic server. *)

From Stdlib Require Import ZArith String List Sorted Permutation Lia.
From Stdlib Require Import Ascii.
From stdpp Require Import base option list sorting gmap strings.

Local Open Scope string_scope.
Local Open Scope Z_scope.
Local Open Scope list_scope.

(** ** Values, exceptions and results *)

(** Scalar values carried by property mappings (decoded JSON scalars). *)
Inductive pyval : Type :=
| PNone
| PBool (b : bool)
| PInt (z : Z)
| PStr (s : string).

(** Python's [==] on scalars; [bool] is a subclass of [int], so
    [True == 1] and [False == 0]. *)
Definition py_eq (a b : pyval) : bool :=
  match a, b with
  | PNone, PNone => true
  | PBool x, PBool y => Bool.eqb x y
  | PInt x, PInt y => (x =? y)%Z
  | PBool x, PInt y | PInt y, PBool x => ((if x then 1 else 0) =? y)%Z
  | PStr x, PStr y => String.eqb x y
  | _, _ => false
  end.

(** Python's [!=]. *)
Definition py_ne (a b : pyval) : bool := negb (py_eq a b).

(** The exceptions the module raises or lets through. [ChannelError]
    stands for whatever the command channel raises. *)
Inductive exn : Type :=
| KeyError (key : string)
| ValueError (msg : string)
| TypeError (msg : string)
| AttributeError (msg : string)
| AssertionError (msg : string)
| RecursionError
| ChannelError (msg : string).

Inductive result (A : Type) : Type :=
| Ok (a : A)
| Raise (e : exn).
Arguments Ok {A} a.
Arguments Raise {A} e.

(** ** Tree items ([TreeItem], [TreeItems]) *)

(** A tree item: the attributes copied from its descriptor, and its
    subitems.  [A] is the attribute record of the item class
    ([ModelItem], [GItem]). *)
#[local] Unset Elimination Schemes.
Inductive TreeItem (A : Type) : Type :=
  mkTreeItem { fields : A; items : list (TreeItem A) }.
Arguments mkTreeItem {A} fields items.
Arguments fields {A} _.
Arguments items {A} _.

(** A decoded item descriptor: its scalar fields and the reserved
    ['items'] entry, [None] when the key is absent from the mapping. *)
Inductive item_data (A : Type) : Type :=
  mkItemData { data_fields : A; data_items : option (list (item_data A)) }.
Arguments mkItemData {A} data_fields data_items.
Arguments data_fields {A} _.
Arguments data_items {A} _.
#[local] Set Elimination Schemes.

(** [TreeItem.__init__]: every entry of [data] becomes an attribute, then
    [self.items] is rebuilt from [getattr(self, 'items', [])] with the
    item's own class. *)
Fixpoint TreeItem_init {A : Type} (data : item_data A) : TreeItem A :=
  mkTreeItem (data_fields data)
    (match data_items data with
     | Some ds => List.map TreeItem_init ds
     | None => []
     end).

(** [TreeItems]: the collection holds the top-level items. *)
Record TreeItems (A : Type) : Type := mkTreeItems { top_items : list (TreeItem A) }.
Arguments mkTreeItems {A} top_items.
Arguments top_items {A} _.

(** The reply a collection is built from: a mapping that may or may not
    have the ['items'] key. *)
Record items_data (A : Type) : Type := mkItemsData { reply_items : option (list (item_data A)) }.
Arguments mkItemsData {A} reply_items.
Arguments reply_items {A} _.

(** [TreeItems.__init__]: [data['items']] is a plain subscript, a missing
    key raises [KeyError]. *)
Definition TreeItems_init {A : Type} (data : items_data A) : result (TreeItems A) :=
  match reply_items data with
  | Some ds => Ok (mkTreeItems (List.map TreeItem_init ds))
  | None => Raise (KeyError "items")
  end.

(** [TreeItems.__iter__], as the list of the items the generator yields:
    [__iter(items)] yields each item and then everything
    [__iter(item.items)] yields. *)
Fixpoint iter_item {A : Type} (item : TreeItem A) : list (TreeItem A) :=
  item :: (fix iter_list (its : list (TreeItem A)) : list (TreeItem A) :=
             match its with
             | [] => []
             | sub :: rest => iter_item sub ++ iter_list rest
             end) (items item).

Fixpoint iter_items {A : Type} (its : list (TreeItem A)) : list (TreeItem A) :=
  match its with
  | [] => []
  | item :: rest => iter_item item ++ iter_items rest
  end.

Definition TreeItems_iter {A : Type} (self : TreeItems A) : list (TreeItem A) :=
  iter_items (top_items self).

(** The same generator, step by step.  A running [__iter__] is a stack of
    suspended [__iter(items)] frames, innermost first, each holding the
    items it has still to visit; [next] resumes it. *)
Definition generator (A : Type) : Type := list (list (TreeItem A)).

Fixpoint next {A : Type} (g : generator A) : option (TreeItem A * generator A) :=
  match g with
  | [] => None
  | [] :: outer => next outer
  | (item :: rest) :: outer => Some (item, items item :: rest :: outer)
  end.

Definition TreeItems_iter_start {A : Type} (self : TreeItems A) : generator A :=
  [top_items self].

(** What a generator still has to yield. *)
Fixpoint pending {A : Type} (g : generator A) : list (TreeItem A) :=
  match g with
  | [] => []
  | frame :: outer => iter_items frame ++ pending outer
  end.

(** Number of nodes of a forest. *)
Fixpoint node_count_item {A : Type} (item : TreeItem A) : nat :=
  S ((fix count (its : list (TreeItem A)) : nat :=
        match its with
        | [] => O
        | sub :: rest => (node_count_item sub + count rest)%nat
        end) (items item)).

Fixpoint node_count {A : Type} (its : list (TreeItem A)) : nat :=
  match its with
  | [] => O
  | item :: rest => (node_count_item item + node_count rest)%nat
  end.

(** Addresses of nodes: the index path from the top-level list. An item
    object is identified by where it sits in the tree. *)
Fixpoint item_at {A : Type} (its : list (TreeItem A)) (p : list nat) : option (TreeItem A) :=
  match p with
  | [] => None
  | i :: p' =>
      match its !! i with
      | None => None
      | Some it => match p' with [] => Some it | _ => item_at (items it) p' end
      end
  end.

(** Addresses of a forest's nodes, in the order [__iter__] visits them;
    [k] is the index of the first item of [its] in its sibling list. *)
Fixpoint addresses_item {A : Type} (item : TreeItem A) : list (list nat) :=
  (fix addresses_list (k : nat) (its : list (TreeItem A)) : list (list nat) :=
     match its with
     | [] => []
     | sub :: rest =>
         ([k] :: List.map (cons k) (addresses_item sub)) ++ addresses_list (S k) rest
     end) O (items item).

Fixpoint addresses_from {A : Type} (k : nat) (its : list (TreeItem A)) : list (list nat) :=
  match its with
  | [] => []
  | item :: rest =>
      ([k] :: List.map (cons k) (addresses_item item)) ++ addresses_from (S k) rest
  end.

Definition addresses {A : Type} (its : list (TreeItem A)) : list (list nat) :=
  addresses_from O its.

(** Pre-order on addresses: an address comes before its extensions and
    before every address that branches off to a later sibling. *)
Fixpoint addr_lt (p q : list nat) : Prop :=
  match p, q with
  | [], [] => False
  | [], _ :: _ => True
  | _ :: _, [] => False
  | i :: p', j :: q' => (i < j)%nat \/ (i = j /\ addr_lt p' q')
  end.

(** ** Dynamic dispatch ([WidgetMetaClass]) *)

(** The classes of the module whose metaclass is [WidgetMetaClass]. Class
    objects are compared by identity ([is]). *)
Inductive cls : Type :=
| Object | Action | AbstractItemModel | Widget | AbstractItemView
| TableView | TreeView | TabBar | GraphicsView | ComboBox | HeaderView
| QuickItem | QuickWindow.

#[global] Instance cls_eq_dec : EqDecision cls.
Proof. solve_decision. Defined.

(** [WidgetMetaClass.__new__]: a truthy [cpp_class] keyword registers the
    new class under that name; a later registration of the same name
    replaces the earlier one. *)
Definition WidgetMetaClass_new (cpp_class : option string) (c : cls)
    (registry : gmap string cls) : gmap string cls :=
  match cpp_class with
  | Some name => if String.eqb name "" then registry else <[name := c]> registry
  | None => registry
  end.

(** The class statements of the module, in source order, with their
    [cpp_class] keyword. *)
Definition class_statements : list (cls * option string) :=
  [ (Object, None); (Action, None); (AbstractItemModel, None); (Widget, None);
    (AbstractItemView, Some "QAbstractItemView");
    (TableView, Some "QTableView");
    (TreeView, Some "QTreeView");
    (TabBar, Some "QTabBar");
    (GraphicsView, Some "QGraphicsView");
    (ComboBox, Some "QComboBox");
    (HeaderView, Some "QHeaderView");
    (QuickItem, Some "QQuickItem");
    (QuickWindow, Some "QQuickWindow") ].

(** [WidgetMetaClass._cpp_classes] once the module is imported. *)
Definition cpp_classes : gmap string cls :=
  fold_left (fun registry '(c, cpp_class) => WidgetMetaClass_new cpp_class c registry)
            class_statements ∅.

(** The descriptor of a remote object, decoded from JSON: [oid], [path],
    the optional ['classes'] chain (most derived first) and whatever other
    scalar fields the server sent. *)
Record descriptor : Type := mkDescriptor {
  oid : Z;
  path : string;
  classes : option (list string);
  extra : gmap string pyval
}.

(** An instance: its class and the attributes [Object.__init__] copied
    from the descriptor.  The [client] every constructor and method
    receives is the channel of the world the call runs in, and the
    property proxy [Object.__init__] attaches is the family of
    [Properties_] functions below, applied to the instance. *)
Record instance : Type := mkInstance { class_of : cls; attrs : descriptor }.

(** [super().__call__(client, data)]: plain construction.
    [Object.__init__] sets every entry of [data] as an attribute and then
    assigns [client], [property] and [properties]: under these three names
    the instance holds the client and the proxy, whatever the descriptor
    had there. *)
Definition Object_init (c : cls) (data : descriptor) : instance :=
  {| class_of := c;
     attrs := {| oid := oid data;
                 path := path data;
                 classes := classes data;
                 extra := delete "client"
                            (delete "property" (delete "properties" (extra data))) |} |}.

(** The [for] loop of [WidgetMetaClass.__call__]: [Some c'] when the loop
    leaves through [return cls._cpp_classes[cppcls](client, data)], [None]
    when it ends or [break]s. *)
Fixpoint walk_chain (registry : gmap string cls) (c : cls) (chain : list string)
    : option cls :=
  match chain with
  | [] => None
  | cppcls :: rest =>
      match registry !! cppcls with
      | Some registered =>
          if decide (c = registered) then None else Some registered
      | None => walk_chain registry c rest
      end
  end.

(** [WidgetMetaClass.__call__(cls, client, data)].  Calling the registered
    class re-enters [__call__]; [fuel] bounds the depth of that recursion
    and [None] is an exhausted bound. *)
Fixpoint WidgetMetaClass_call (fuel : nat) (registry : gmap string cls) (c : cls)
    (data : descriptor) : option instance :=
  match fuel with
  | O => None
  | S fuel' =>
      match walk_chain registry c (default [] (classes data)) with
      | Some registered => WidgetMetaClass_call fuel' registry registered data
      | None => Some (Object_init c data)
      end
  end.

(** The first name of a chain that the registry knows, with its class. *)
Fixpoint first_registered (registry : gmap string cls) (chain : list string)
    : option (string * cls) :=
  match chain with
  | [] => None
  | cppcls :: rest =>
      match registry !! cppcls with
      | Some registered => Some (cppcls, registered)
      | None => first_registered registry rest
      end
  end.

(** Instantiating a class, as the module's code does with [Cls(client,
    data)]: the interpreter's recursion limit is the only bound. *)
Definition new_instance (c : cls) (data : descriptor) : result instance :=
  match WidgetMetaClass_call 1000 cpp_classes c data with
  | Some inst => Ok inst
  | None => Raise RecursionError
  end.

(** ** Item classes *)

(** Attributes of a [ModelItem], typed as its docstring types them. *)
Record ModelFields : Type := mkModelFields {
  modelid : Z;
  row : Z;
  column : Z;
  value : string;
  check_state : option string;
  itempath : option string
}.

Abbreviation ModelItem := (TreeItem ModelFields).
Abbreviation ModelItems := (TreeItems ModelFields).

(** Attributes of a [GItem]. *)
Record GFields : Type := mkGFields {
  viewid : Z;
  gid : Z;
  objectname : option string;
  gclasses : option (list string)
}.

Abbreviation GItem := (TreeItem GFields).

(** ** The command channel *)

(** The commands this part of the module sends, with their keyword
    arguments. *)
Inductive command : Type :=
| object_properties (oid : Z)
| object_set_properties (oid : Z) (properties : gmap string pyval)
| widget_click (oid : Z) (mouseAction : string)
| model (oid : Z)
| model_items (oid : Z)
| model_item_action (oid : Z) (itemaction : string) (row column : Z)
    (origin : option string) (offset_x offset_y : option Z) (itempath : option string)
| model_gitem_action (oid : Z) (itemaction : string) (gid : Z).

(** Decoded replies, by shape. *)
Inductive reply : Type :=
| RNone
| RProperties (properties : gmap string pyval)
| RObject (data : descriptor)
| RModelItems (data : items_data ModelFields).

(** The world a call runs in: the remote side, the commands sent so far
    and the clock (milliseconds).  The remote side is any function from
    the current time and the history of commands to the reply to the last
    of them. *)
Record world : Type := mkWorld {
  server : Z -> list command -> result reply;
  sent : list command;
  now : Z
}.

(** Computations that read and change the world and may raise. *)
Definition M (A : Type) : Type := world -> result A * world.

#[global] Instance M_ret : MRet M := fun A a w => (Ok a, w).
#[global] Instance M_bind : MBind M := fun A B f m w =>
  match m w with
  | (Ok a, w') => f a w'
  | (Raise e, w') => (Raise e, w')
  end.

Definition raise {A : Type} (e : exn) : M A := fun w => (Raise e, w).

Definition lift {A : Type} (r : result A) : M A := fun w => (r, w).

(** [client.send_command(name, **kwargs)]: one request, one reply; what
    the channel raises is let through. *)
Definition send_command (cmd : command) : M reply := fun w =>
  let history := sent w ++ [cmd] in
  (server w (now w) history,
   {| server := server w; sent := history; now := now w |}).

(** [time.sleep] and [time.time]. *)
Definition sleep (d : Z) : M unit := fun w =>
  (Ok tt, {| server := server w; sent := sent w; now := now w + d |}).

Definition time : M Z := fun w => (Ok (now w), w).

(** ** Remote objects and their property proxy ([Object]) *)

(** Reading a reply as the mapping of properties; a reply of another shape
    is outside the wire contract and reading it fails. *)
Definition as_properties (r : reply) : result (gmap string pyval) :=
  match r with
  | RProperties m => Ok m
  | _ => Raise (TypeError "properties mapping expected")
  end.

(** [Properties.__call__]: the mapping of the object's properties, by one
    ['object_properties'] command. *)
Definition Properties_call (obj : instance) : M (gmap string pyval) :=
  r ← send_command (object_properties (oid (attrs obj)));
  lift (as_properties r).

(** [d[item]] on a mapping. *)
Definition getitem (d : gmap string pyval) (item : string) : result pyval :=
  match d !! item with
  | Some v => Ok v
  | None => Raise (KeyError item)
  end.

(** [Properties.__contains__]. *)
Definition Properties_contains (obj : instance) (item : string) : M bool :=
  d ← Properties_call obj;
  mret (bool_decide (is_Some (d !! item))).

(** [Properties.__getitem__]: [self()[item]]. *)
Definition Properties_getitem (obj : instance) (item : string) : M pyval :=
  d ← Properties_call obj;
  lift (getitem d item).

(** [Properties.__getattr__], the method: [self()[item]].  It is not the
    attribute read itself, see [Properties_attribute_read]. *)
Definition Properties_getattr (obj : instance) (item : string) : M pyval :=
  d ← Properties_call obj;
  lift (getitem d item).

(** What an attribute read of the proxy gives: a value read from the
    remote object, or an attribute of the proxy itself (a method, the
    object it wraps, ...). *)
Inductive attribute : Type :=
| Remote (v : pyval)
| Local (name : string).

(** The names the class [Properties] itself puts on a proxy: the
    attribute [__init__] stores (the private name [__obj], mangled) and the
    methods of the class body. *)
Definition proxy_attributes : list string :=
  [ "_Properties__obj"; "__init__"; "__call__"; "__contains__"; "__getitem__";
    "__setitem__"; "__getattr__"; "__setattr__" ].

(** Ordinary attribute lookup on a proxy finds the names above and the
    names the interpreter gives every object ([__class__], [__doc__], ...);
    which names these are depends on the interpreter, so they are a
    parameter. *)
Definition ordinary_lookup (interpreter : string -> bool) (name : string) : bool :=
  bool_decide (name ∈ proxy_attributes) || interpreter name.

(** The attribute read [proxy.name]: Python calls [__getattr__] only when
    ordinary lookup has not found the name. *)
Definition Properties_attribute_read (interpreter : string -> bool) (obj : instance)
    (name : string) : M attribute :=
  if ordinary_lookup interpreter name then mret (Local name)
  else v ← Properties_getattr obj name; mret (Remote v).

(** For the examples: attributes every object has in CPython 3. *)
Definition cpython_attributes (name : string) : bool :=
  bool_decide (name ∈ [ "__class__"; "__doc__"; "__dict__"; "__module__"; "__repr__";
                        "__str__"; "__hash__"; "__eq__"; "__ne__"; "__dir__";
                        "__new__"; "__reduce__"; "__sizeof__"; "__format__";
                        "__getattribute__"; "__delattr__" ]).

(** [Object.set_properties], called with the properties as keywords.
    A keyword named [self] collides with the parameter the method is bound
    on: the call raises [TypeError] before the body runs.  The message is
    the interpreter's and its wording varies; the part common to the
    interpreters stands for it. *)
Definition Object_set_properties (self : instance) (properties : gmap string pyval)
    : M unit :=
  match properties !! "self" with
  | Some _ => raise (TypeError "got multiple values for argument 'self'")
  | None =>
      send_command (object_set_properties (oid (attrs self)) properties);;
      mret tt
  end.

(** [Object.set_property(name, value)]. *)
Definition Object_set_property (self : instance) (name : string) (v : pyval) : M unit :=
  Object_set_properties self {[ name := v ]}.

(** [Properties.__setitem__]. *)
Definition Properties_setitem (obj : instance) (item : string) (v : pyval) : M unit :=
  Object_set_properties obj {[ item := v ]}.

(** [Properties.__setattr__]; Python calls it for every attribute write
    [proxy.name = value]. *)
Definition Properties_setattr (obj : instance) (item : string) (v : pyval) : M unit :=
  Object_set_properties obj {[ item := v ]}.

(** Modelled from the spec: [funq.tools.wait_for], which is not part of
    the sources at hand.  The predicate is evaluated at once and a true
    result returns true without sleeping; otherwise sleep and evaluate are
    repeated until the predicate holds (true) or the time elapsed since
    the first evaluation reaches the timeout (false).  With a positive
    interval at most [timeout / poll_interval + 1] rounds are needed,
    which is the bound of the loop. *)
Fixpoint wait_for_loop (rounds : nat) (predicate : M bool) (start timeout poll_interval : Z)
    : M bool :=
  match rounds with
  | O => mret false
  | S rounds' =>
      sleep poll_interval;;
      b ← predicate;
      if b : bool then mret true
      else
        t ← time;
        if (timeout <=? t - start)%Z then mret false
        else wait_for_loop rounds' predicate start timeout poll_interval
  end.

Definition wait_for (predicate : M bool) (timeout poll_interval : Z) : M bool :=
  start ← time;
  b ← predicate;
  if b : bool then mret true
  else wait_for_loop (Z.to_nat (timeout / poll_interval) + 1) predicate
         start timeout poll_interval.

(** The body of the [for] loop of [check_props]: one key is satisfied
    when [properties.get(k) != v] is false. *)
Definition prop_satisfied (properties : gmap string pyval) (k : string) (v : pyval) : bool :=
  negb (py_ne (default PNone (properties !! k)) v).

(** [check_props], the closure [wait_for_properties] polls: a fresh read
    of the properties, then every expected entry is compared.  The loop
    returns [False] at the first entry that differs and [True] after the
    last, which is the conjunction over the entries. *)
Definition check_props (self : instance) (props : gmap string pyval) : M bool :=
  properties ← Properties_call self;
  mret (forallb (fun kv => prop_satisfied properties kv.1 kv.2) (map_to_list props)).

(** [Object.wait_for_properties(props, timeout, timeout_interval)]. *)
Definition Object_wait_for_properties (self : instance) (props : gmap string pyval)
    (timeout timeout_interval : Z) : M bool :=
  wait_for (check_props self props) timeout timeout_interval.

(** ** Widgets and click-style operations *)

(** The [if]/[elif] chain on [btn] that [Widget.click],
    [AbstractItemView.click_item] and [GItem.click] each spell out. *)
Definition mouse_action (btn : string) : result string :=
  if String.eqb btn "left" then Ok "click"
  else if String.eqb btn "right" then Ok "rightclick"
  else if String.eqb btn "middle" then Ok "middleclick"
  else Raise (ValueError ("Invalid mouse button: " +:+ btn)).

(** [Widget.click(wait_for_enabled, btn)]; the interval of the wait is
    the default [0.1] s of [wait_for_properties]. *)
Definition Widget_click (self : instance) (wait_for_enabled : Z) (btn : string) : M unit :=
  (if (0 <? wait_for_enabled)%Z
   then Object_wait_for_properties self
          {[ "enabled" := PBool true; "visible" := PBool true ]}
          wait_for_enabled 100;; mret tt
   else mret tt);;
  action ← lift (mouse_action btn);
  send_command (widget_click (oid (attrs self)) action);;
  mret tt.

(** [AbstractItemView._item_action]. *)
Definition AbstractItemView_item_action (self : instance) (item : ModelItem)
    (itemaction : string) (origin : option string) (offset_x offset_y : option Z) : M unit :=
  send_command (model_item_action (oid (attrs self)) itemaction
                  (row (fields item)) (column (fields item))
                  origin offset_x offset_y (itempath (fields item)));;
  mret tt.

(** [AbstractItemView.click_item]. *)
Definition AbstractItemView_click_item (self : instance) (item : ModelItem)
    (origin : string) (offset_x offset_y : Z) (btn : string) : M unit :=
  action ← lift (mouse_action btn);
  AbstractItemView_item_action self item action (Some origin) (Some offset_x) (Some offset_y).

(** [GItem._action]. *)
Definition GItem_action (self : GItem) (itemaction : string) : M unit :=
  send_command (model_gitem_action (viewid (fields self)) itemaction (gid (fields self)));;
  mret tt.

(** [GItem.click(btn)]. *)
Definition GItem_click (self : GItem) (btn : string) : M unit :=
  action ← lift (mouse_action btn);
  GItem_action self action.

(** ** Named paths ([ModelItems.row_by_named_path]) *)

(** [sorted(l, key=...)] with integer keys: Python's sort is stable, and
    a stable sort has one possible result, which insertion from the right
    computes. *)
Fixpoint sorted_insert {A : Type} (key : A -> Z) (x : A) (l : list A) : list A :=
  match l with
  | [] => [x]
  | y :: rest =>
      if (key x <=? key y)%Z then x :: y :: rest
      else y :: sorted_insert key x rest
  end.

Fixpoint sorted {A : Type} (key : A -> Z) (l : list A) : list A :=
  match l with
  | [] => []
  | x :: rest => sorted_insert key x (sorted key rest)
  end.

(** The test of the inner loop:
    [match_column == item_.column and item_.value == part]. *)
Definition matches (match_column : Z) (part : string) (item_ : ModelItem) : bool :=
  (match_column =? column (fields item_))%Z && String.eqb (value (fields item_)) part.

(** The row returned for a matched item: its siblings of the same level
    with its row number, sorted on their column. *)
Definition row_of (level : list ModelItem) (item_ : ModelItem) : list ModelItem :=
  sorted (fun it => column (fields it))
         (List.filter (fun it => (row (fields it) =? row (fields item_))%Z) level).

(** The [for item_ in item.items] loop over what is left of the level:
    [inl row] when it leaves through [return], otherwise [inr next_item]
    with the value [next_item] has when the loop ends.  [no_parts_left] is
    [not parts] and [level] the whole [item.items]. *)
Fixpoint scan_items (level : list ModelItem) (match_column : Z) (part : string)
    (no_parts_left : bool) (todo : list ModelItem) (next_item : option ModelItem)
    : list ModelItem + option ModelItem :=
  match todo with
  | [] => inr next_item
  | item_ :: rest =>
      if matches match_column part item_ then
        if no_parts_left then inl (row_of level item_)
        else scan_items level match_column part no_parts_left rest (Some item_)
      else scan_items level match_column part no_parts_left rest next_item
  end.

(** The [while item and parts] loop.  [cursor] is [item.items], or [None]
    when [item] is [None]; the collection and its items are always truthy. *)
Fixpoint named_path_loop (cursor : option (list ModelItem)) (match_column : Z)
    (parts : list string) : option (list ModelItem) :=
  match cursor, parts with
  | Some level, part :: parts' =>
      match scan_items level match_column part
              (match parts' with [] => true | _ => false end) level None with
      | inl found => Some found
      | inr next_item => named_path_loop (items <$> next_item) match_column parts'
      end
  | _, _ => None
  end.

(** [str.split(sep)] for a non-empty separator: [skip] counts the
    characters of a separator occurrence still to pass over and [cur] holds
    the current piece, last character first. *)
Fixpoint split_from (sep : string) (s : string) (skip : nat) (cur : string) : list string :=
  match s with
  | EmptyString => [String.rev cur]
  | String c s' =>
      match skip with
      | S k => split_from sep s' k cur
      | O =>
          if String.prefix sep s
          then String.rev cur :: split_from sep s' (String.length sep - 1) EmptyString
          else split_from sep s' O (String c cur)
      end
  end.

Definition str_split (s sep : string) : result (list string) :=
  if String.eqb sep "" then Raise (ValueError "empty separator")
  else Ok (split_from sep s O EmptyString).

(** [ModelItems.row_by_named_path(named_path, match_column, sep)]:
    [named_path] is a list of parts or one string to split on [sep]. The
    result is the row, or [None] when the path does not exist. *)
Definition row_by_named_path (self : ModelItems) (named_path : list string + string)
    (match_column : Z) (sep : string) : result (option (list ModelItem)) :=
  match (match named_path with
         | inl l => Ok l
         | inr s => str_split s sep
         end) with
  | Ok parts => Ok (named_path_loop (Some (top_items self)) match_column parts)
  | Raise e => Raise e
  end.

(** ** The combobox ([ComboBox]) and its model *)

Definition as_object (r : reply) : result descriptor :=
  match r with
  | RObject data => Ok data
  | _ => Raise (TypeError "object descriptor expected")
  end.

Definition as_model_items (r : reply) : result (items_data ModelFields) :=
  match r with
  | RModelItems data => Ok data
  | _ => Raise (TypeError "model items expected")
  end.

(** [ComboBox.model]. *)
Definition ComboBox_model (self : instance) : M instance :=
  r ← send_command (model (oid (attrs self)));
  data ← lift (as_object r);
  lift (new_instance AbstractItemModel data).

(** [AbstractItemModel.items]. *)
Definition AbstractItemModel_items (self : instance) : M ModelItems :=
  r ← send_command (model_items (oid (attrs self)));
  data ← lift (as_model_items r);
  lift (TreeItems_init data).

(** [obj.items()]: of the classes in [cls] only [AbstractItemModel] has
    the method. *)
Definition call_items (obj : instance) : M ModelItems :=
  if decide (class_of obj = AbstractItemModel) then AbstractItemModel_items obj
  else raise (AttributeError "items").

(** The message of the assertion of [set_current_text]. *)
Definition not_in_combobox (text path : string) : string :=
  "The text `" +:+ text +:+ "` is not in the combobox `" +:+ path +:+ "`".

(** [ComboBox.set_current_text(text)]; [text] is a [str], so the
    [isinstance] guard passes.  The loop over the items of the model
    [break]s at the first match; a failed [assert] raises
    [AssertionError] with its message. *)
Definition ComboBox_set_current_text (self : instance) (text : string) : M unit :=
  properties ← Properties_call self;
  model_column ← lift (getitem properties "modelColumn");
  m ← ComboBox_model self;
  its ← call_items m;
  let index :=
    match List.find (fun item => py_eq model_column (PInt (column (fields item)))
                                 && String.eqb (value (fields item)) text)
                    (TreeItems_iter its) with
    | Some item => row (fields item)
    | None => -1
    end in
  if (-1 <? index)%Z then Object_set_property self "currentIndex" (PInt index)
  else raise (AssertionError (not_in_combobox text (path (attrs self)))).

(** ** Notions the statements use *)

(** A path through matched items.  [resolves ok mc level parts final it]:
    starting from [level], each part in turn matches an item of the
    current level, the search goes on in the children of the matched item,
    and the last part matches [it] in [final].  [ok] is a side condition
    on each level at which a match is chosen. *)
Inductive resolves (ok : string -> list ModelItem -> Prop) (mc : Z)
  : list ModelItem -> list string -> list ModelItem -> ModelItem -> Prop :=
| resolves_last level part it :
    it ∈ level -> matches mc part it = true -> ok part level ->
    resolves ok mc level [part] level it
| resolves_step level part it parts final found :
    it ∈ level -> matches mc part it = true -> ok part level ->
    parts <> [] ->
    resolves ok mc (items it) parts final found ->
    resolves ok mc level (part :: parts) final found.

(** A path through matched items that reaches a level where no item
    matches the current part. *)
Inductive dead_end (ok : string -> list ModelItem -> Prop) (mc : Z)
  : list ModelItem -> list string -> Prop :=
| dead_end_here level part parts :
    (forall it, it ∈ level -> matches mc part it = false) ->
    dead_end ok mc level (part :: parts)
| dead_end_step level part it parts :
    it ∈ level -> matches mc part it = true -> ok part level ->
    parts <> [] ->
    dead_end ok mc (items it) parts ->
    dead_end ok mc level (part :: parts).

(** No side condition. *)
Definition any_level (part : string) (level : list ModelItem) : Prop := True.

(** At most one item of the level matches the part. *)
Definition one_match (mc : Z) (part : string) (level : list ModelItem) : Prop :=
  (length (List.filter (matches mc part) level) <= 1)%nat.

(** Named-path resolution as the specification words it: at each level
    the first item that matches, in iteration order, is the one used. *)
Fixpoint first_match_loop (level : list ModelItem) (match_column : Z)
    (parts : list string) : option (list ModelItem) :=
  match parts with
  | [] => None
  | part :: parts' =>
      match List.find (matches match_column part) level with
      | None => None
      | Some it =>
          match parts' with
          | [] => Some (row_of level it)
          | _ => first_match_loop (items it) match_column parts'
          end
      end
  end.

(** The last item of a level that matches. *)
Definition last_match (match_column : Z) (part : string) (level : list ModelItem)
    : option ModelItem :=
  List.find (matches match_column part) (List.rev level).

(** [needle] occurs in [s]. *)
Definition contains (s needle : string) : Prop :=
  exists before after, s = before +:+ needle +:+ after.

(** The same, decided. *)
Fixpoint occurs (needle s : string) : bool :=
  String.prefix needle s ||
  match s with
  | EmptyString => false
  | String _ s' => occurs needle s'
  end.

(** Induction over an item and the list of its subitems at once. *)
Section forest_induction.
Context {A : Type} (P : TreeItem A -> Prop) (Q : list (TreeItem A) -> Prop).
Hypothesis Hnil : Q [].
Hypothesis Hcons : forall item rest, P item -> Q rest -> Q (item :: rest).
Hypothesis Hitem : forall f its, Q its -> P (mkTreeItem f its).

Fixpoint TreeItem_forest_rect (item : TreeItem A) : P item :=
  match item with
  | mkTreeItem f its =>
      Hitem f its
        ((fix over (l : list (TreeItem A)) : Q l :=
            match l with
            | [] => Hnil
            | sub :: rest => Hcons sub rest (TreeItem_forest_rect sub) (over rest)
            end) its)
  end.
End forest_induction.

(** The world after one more command. *)
Definition after_command (cmd : command) (w : world) : world :=
  {| server := server w; sent := sent w ++ [cmd]; now := now w |}.

(** A property query of object [o]. *)
Definition is_query (o : Z) (cmd : command) : Prop := cmd = object_properties o.

(** [m] sends only commands that satisfy [P], whatever the world. *)
Definition only_sends {A : Type} (P : command -> Prop) (m : M A) : Prop :=
  forall w, exists l, sent (m w).2 = sent w ++ l /\ Forall P l.

(** The optional wait at the head of [Widget.click]. *)
Definition click_wait (self : instance) (wait_for_enabled : Z) : M unit :=
  if (0 <? wait_for_enabled)%Z
  then Object_wait_for_properties self
         {[ "enabled" := PBool true; "visible" := PBool true ]}
         wait_for_enabled 100;; mret tt
  else mret tt.

(** The test of the loop of [set_current_text]. *)
Definition combo_test (model_column : pyval) (text : string) (item : ModelItem) : bool :=
  py_eq model_column (PInt (column (fields item))) && String.eqb (value (fields item)) text.

(** Ascending on the key. *)
Definition key_le {A : Type} (key : A -> Z) (x y : A) : Prop := (key x <= key y)%Z.

(** ** Concrete servers and data for the examples *)

(** The properties of object [o] after the writes of a history, over
    initial properties [init]. *)
Definition stored_properties (init : gmap string pyval) (o : Z) (history : list command)
    : gmap string pyval :=
  fold_left (fun m cmd =>
               match cmd with
               | object_set_properties o' ps => if (o' =? o)%Z then ps ∪ m else m
               | _ => m
               end) history init.

(** A server that keeps what it is told: it answers property queries
    from the stored state, a model query with [model_data] and an items
    query with [its]. *)
Definition echo_server (init : gmap string pyval) (model_data : descriptor)
    (its : items_data ModelFields) : Z -> list command -> result reply :=
  fun _ history =>
    match last history with
    | Some (object_properties o) => Ok (RProperties (stored_properties init o history))
    | Some (model _) => Ok (RObject model_data)
    | Some (model_items _) => Ok (RModelItems its)
    | _ => Ok RNone
    end.

Definition leaf (r c : Z) (v : string) : ModelItem :=
  mkTreeItem (mkModelFields 1 r c v None None) [].

Definition node (r c : Z) (v : string) (children : list ModelItem) : ModelItem :=
  mkTreeItem (mkModelFields 1 r c v None None) children.

Definition leaf_data (r c : Z) (v : string) : item_data ModelFields :=
  mkItemData (mkModelFields 1 r c v None None) None.

(** The tree of the specification's scenario: ["A"] with children ["B"]
    (column 0) and ["X"] (column 1) on row 0. *)
Definition scenario_tree : ModelItems :=
  mkTreeItems [ node 0 0 "A" [ leaf 0 0 "B"; leaf 0 1 "X" ] ].

(** Two top-level items named ["A"]; only the first has a child ["B"]. *)
Definition twin_tree : ModelItems :=
  mkTreeItems [ node 0 0 "A" [ leaf 0 0 "B" ]; node 1 0 "A" [] ].

(** Two top-level items named ["A"] again: the path A, B exists below the
    first, the second has another child. *)
Definition shadowed_tree : ModelItems :=
  mkTreeItems [ node 0 0 "A" [ leaf 0 0 "B"; leaf 0 1 "X" ];
                node 1 0 "A" [ leaf 0 0 "C" ] ].

(** The combobox of the specification's scenario. *)
Definition combo_items : items_data ModelFields :=
  mkItemsData (Some [ leaf_data 0 0 "Red"; leaf_data 1 0 "Blue" ]).

Definition combo_model_data : descriptor :=
  mkDescriptor 8 "win::combo::model" (Some ["QStandardItemModel"; "QAbstractItemModel"; "QObject"]) ∅.

Definition combo : instance :=
  Object_init ComboBox
    (mkDescriptor 7 "win::combo" (Some ["QComboBox"; "QWidget"; "QObject"]) ∅).

Definition combo_world : world :=
  mkWorld (echo_server {[ "modelColumn" := PInt 0; "enabled" := PBool true;
                          "visible" := PBool true ]}
                       combo_model_data combo_items) [] 0.

(** A table view as the server describes it. *)
Definition table_view_data : descriptor :=
  mkDescriptor 3 "win::table" (Some ["QTableView"; "QAbstractItemView"; "QWidget"]) ∅.

(** The registry of the specification's scenario. *)
Definition scenario_registry : gmap string cls :=
  <["QAbstractItemView" := AbstractItemView]> (<["QTableView" := TableView]> ∅).

Definition some_gitem : GItem := mkTreeItem (mkGFields 3 11 None None) [].

(** ** More of the module *)

(** [ModelItem.is_checkable]: [check_state is not None]. *)
Definition ModelItem_is_checkable (self : ModelItem) : bool :=
  match check_state (fields self) with
  | Some _ => true
  | None => false
  end.

(** [ModelItem.is_checked]: [check_state == 'checked']. *)
Definition ModelItem_is_checked (self : ModelItem) : bool :=
  match check_state (fields self) with
  | Some state => String.eqb state "checked"
  | None => false
  end.

(** What a subscript of a list gives: the element, or [IndexError]; the
    other outcomes are those of the call that produced the list. *)
Inductive index_result (A : Type) : Type :=
| Got (a : A)
| Failed (e : exn)
| IndexError.
Arguments Got {A} a.
Arguments Failed {A} e.
Arguments IndexError {A}.

(** [l[i]] on a list: a negative index counts from the end, an index
    outside the list is an error ([None]). *)
Definition list_getitem {A : Type} (l : list A) (i : Z) : option A :=
  let n := Z.of_nat (length l) in
  let j := if (i <? 0)%Z then (i + n)%Z else i in
  if (0 <=? j)%Z && (j <? n)%Z then l !! Z.to_nat j else None.

(** [ModelItems.item_by_named_path(named_path, match_column, sep, column)]:
    [items[column] if items else None], where [None] and the empty list
    are the false values of [items]. *)
Definition item_by_named_path (self : ModelItems) (named_path : list string + string)
    (match_column : Z) (sep : string) (column : Z) : index_result (option ModelItem) :=
  match row_by_named_path self named_path match_column sep with
  | Raise e => Failed e
  | Ok None => Got None
  | Ok (Some []) => Got None
  | Ok (Some items) =>
      match list_getitem items column with
      | Some item => Got (Some item)
      | None => IndexError
      end
  end.

(** [sep.join(parts)]. *)
Fixpoint str_join (sep : string) (parts : list string) : string :=
  match parts with
  | [] => ""
  | [part] => part
  | part :: rest => part +:+ sep +:+ str_join sep rest
  end.

(** The character [c] does not occur in [s]. *)
Fixpoint without_char (c : Ascii.ascii) (s : string) : Prop :=
  match s with
  | EmptyString => True
  | String a s' => a <> c /\ without_char c s'
  end.

(** The parts of a path are unambiguous when, on the way down through
    first matches, every level but the last has at most one match. *)
Fixpoint unambiguous (level : list ModelItem) (mc : Z) (parts : list string) : Prop :=
  match parts with
  | [] => True
  | part :: rest =>
      match rest with
      | [] => True
      | _ =>
          one_match mc part level
          /\ match List.find (matches mc part) level with
             | Some it => unambiguous (items it) mc rest
             | None => True
             end
      end
  end.


(** The fields of the descriptors of a tree, parents first. *)
Fixpoint data_preorder_item {A : Type} (d : item_data A) : list A :=
  data_fields d ::
  match data_items d with
  | Some ds =>
      (fix over (l : list (item_data A)) : list A :=
         match l with
         | [] => []
         | sub :: rest => data_preorder_item sub ++ over rest
         end) ds
  | None => []
  end.

Fixpoint data_preorder {A : Type} (ds : list (item_data A)) : list A :=
  match ds with
  | [] => []
  | d :: rest => data_preorder_item d ++ data_preorder rest
  end.

(** The commands by which [set_current_text] reads. *)
Definition combo_read (self : instance) (cmd : command) : Prop :=
  cmd = object_properties (oid (attrs self))
  \/ cmd = model (oid (attrs self))
  \/ exists o, cmd = model_items o.

(** The command by which [set_current_text] writes index [i]. *)
Definition combo_write (self : instance) (i : Z) : command :=
  object_set_properties (oid (attrs self)) {[ "currentIndex" := PInt i ]}.

(** A combobox whose properties have no ['modelColumn']. *)
Definition bare_world : world :=
  mkWorld (echo_server {[ "enabled" := PBool true ]} combo_model_data combo_items) [] 0.

(** ** The build helper ([copy_lib.py]) *)

(** The helper runs against a file system: [glob.glob] lists the paths
    that match a pattern, [shutil.copy] copies one file and either
    succeeds ([None]) or raises an exception with a message.  [copy_file]
    returns its boolean, the file system after it and the lines it
    printed. *)
Section copy_lib.
Context {FS : Type}.
Context (glob_glob : string -> FS -> list string).
Context (shutil_copy : string -> string -> FS -> option string * FS).

(** [copy_file(source_path, destination_path)].  The [for] loop only
    prints; the copy after it uses the loop variable, which by then is the
    last path of the list (the list is not empty there). *)
Definition copy_file (source_path destination_path : string) (fs : FS)
    : bool * FS * list string :=
  let file_lst := glob_glob source_path fs in
  if Nat.eqb (length file_lst) 0
  then (false, fs, ["warning: file(s) '" +:+ source_path +:+ "' not found"])
  else
    let printed :=
      List.map (fun file => "Copy " +:+ file +:+ " -> " +:+ destination_path) file_lst in
    match last file_lst with
    | None => (false, fs, printed)
    | Some file =>
        match shutil_copy file destination_path fs with
        | (None, fs') => (true, fs', printed)
        | (Some error, fs') => (false, fs', printed ++ [error])
        end
    end.
End copy_lib.

(** A file system for the examples: two libraries match every pattern,
    and the state is the list of the copies made so far. *)
Definition two_libraries (pattern : string) (copies : list (string * string)) : list string :=
  ["build/a.so"; "build/b.so"].

Definition recording_copy (src dst : string) (copies : list (string * string))
    : option string * list (string * string) :=
  (None, copies ++ [(src, dst)]).

(** * Properties *)

(** ** Trees: construction and traversal *)

Lemma forest_ind {A : Type} (P : TreeItem A -> Prop) (Q : list (TreeItem A) -> Prop) :
  Q [] ->
  (forall item rest, P item -> Q rest -> Q (item :: rest)) ->
  (forall f its, Q its -> P (mkTreeItem f its)) ->
  forall its, Q its.
Proof.
  intros Hnil Hcons Hitem its.
  induction its as [|item rest IH]; [exact Hnil|].
  apply Hcons; [apply (TreeItem_forest_rect P Q Hnil Hcons Hitem) | exact IH].
Qed.

Lemma iter_item_eq {A : Type} (item : TreeItem A) :
  iter_item item = item :: iter_items (items item).
Proof.
  destruct item as [f its]; simpl. f_equal.
  induction its as [|sub rest IH]; simpl; [reflexivity|]. now rewrite IH.
Qed.

Lemma node_count_item_eq {A : Type} (item : TreeItem A) :
  node_count_item item = S (node_count (items item)).
Proof.
  destruct item as [f its]; simpl. f_equal.
  induction its as [|sub rest IH]; simpl; [reflexivity|]. now rewrite IH.
Qed.

Lemma addresses_item_eq {A : Type} (item : TreeItem A) :
  addresses_item item = addresses_from O (items item).
Proof.
  destruct item as [f its]; simpl. generalize O.
  induction its as [|sub rest IH]; intros k; simpl; [reflexivity|].
  now rewrite IH.
Qed.

(** The equation of [__iter]: an item, then all of its subtree, then the
    rest of the level. *)
Lemma iter_items_cons {A : Type} (item : TreeItem A) (rest : list (TreeItem A)) :
  iter_items (item :: rest) = item :: iter_items (items item) ++ iter_items rest.
Proof. simpl. now rewrite iter_item_eq. Qed.

Lemma iter_items_app {A : Type} (l1 l2 : list (TreeItem A)) :
  iter_items (l1 ++ l2) = iter_items l1 ++ iter_items l2.
Proof.
  induction l1 as [|item rest IH]; simpl; [reflexivity|].
  now rewrite IH, app_assoc.
Qed.

Lemma iter_items_length {A : Type} (its : list (TreeItem A)) :
  length (iter_items its) = node_count its.
Proof.
  pattern its.
  apply (forest_ind (fun item => length (iter_item item) = node_count_item item)).
  - reflexivity.
  - intros item rest Hi Hr. simpl. rewrite length_app. congruence.
  - intros f l Hl. rewrite iter_item_eq, node_count_item_eq. simpl. congruence.
Qed.

(** Resuming the generator yields the head of what is pending. *)
Lemma next_pending {A : Type} (g : generator A) :
  match next g with
  | Some (item, g') => pending g = item :: pending g'
  | None => pending g = []
  end.
Proof.
  induction g as [|frame outer IH]; simpl; [reflexivity|].
  destruct frame as [|item rest].
  - simpl. exact IH.
  - simpl pending. rewrite iter_items_cons. simpl. now rewrite <- app_assoc.
Qed.

Lemma addr_lt_irrefl (p : list nat) : ~ addr_lt p p.
Proof. induction p as [|i p IH]; simpl; [tauto|]. intros [H|[_ H]]; [lia|tauto]. Qed.

Lemma addr_lt_extend (p q : list nat) : q <> [] -> addr_lt p (p ++ q).
Proof.
  intros Hq. induction p as [|i p IH]; simpl.
  - destruct q; [congruence|exact I].
  - right. split; [reflexivity|exact IH].
Qed.

Lemma addr_lt_branch (pre p q : list nat) (i j : nat) :
  (i < j)%nat -> addr_lt (pre ++ i :: p) (pre ++ j :: q).
Proof.
  intros Hij. induction pre as [|k pre IH]; simpl; [left; exact Hij|].
  right. split; [reflexivity|exact IH].
Qed.

Lemma addresses_from_head {A : Type} (its : list (TreeItem A)) (k : nat) (p : list nat) :
  p ∈ addresses_from k its ->
  exists i p', p = i :: p' /\ (k <= i < k + length its)%nat.
Proof.
  revert k. induction its as [|item rest IH]; intros k; simpl.
  - intros H. inversion H.
  - rewrite elem_of_cons, elem_of_app. intros [->|[H|H]].
    + exists k, []. split; [reflexivity|lia].
    + apply list_elem_of_In, in_map_iff in H. destruct H as (p' & <- & _).
      exists k, p'. split; [reflexivity|lia].
    + apply IH in H. destruct H as (i & p' & -> & Hi).
      exists i, p'. split; [reflexivity|lia].
Qed.

Lemma addresses_item_nonempty {A : Type} (item : TreeItem A) (p : list nat) :
  p ∈ addresses_item item -> p <> [].
Proof.
  rewrite addresses_item_eq. intros H.
  apply addresses_from_head in H. destruct H as (i & p' & -> & _). discriminate.
Qed.

Lemma addr_lt_cons (k : nat) (p q : list nat) : addr_lt p q -> addr_lt (k :: p) (k :: q).
Proof. intros H. simpl. right. split; [reflexivity|exact H]. Qed.

Lemma StronglySorted_map_cons (k : nat) (l : list (list nat)) :
  StronglySorted addr_lt l -> StronglySorted addr_lt (List.map (cons k) l).
Proof.
  induction 1 as [|p l Hl IH Hp]; simpl; constructor; [exact IH|].
  apply Forall_forall. intros q Hq.
  apply list_elem_of_In, in_map_iff in Hq. destruct Hq as (q' & <- & Hq').
  apply addr_lt_cons. rewrite Forall_forall in Hp. apply Hp, list_elem_of_In, Hq'.
Qed.

Lemma addresses_from_sorted {A : Type} (its : list (TreeItem A)) :
  forall k, StronglySorted addr_lt (addresses_from k its).
Proof.
  pattern its.
  apply (forest_ind (fun item => StronglySorted addr_lt (addresses_item item))).
  - intros k. constructor.
  - intros item rest Hi Hr k. simpl.
    apply StronglySorted_cons. split.
    + apply Forall_forall. intros q Hq. apply elem_of_app in Hq as [Hq|Hq].
      * apply list_elem_of_In, in_map_iff in Hq. destruct Hq as (q' & <- & Hq').
        apply list_elem_of_In, addresses_item_nonempty in Hq'.
        simpl. right. split; [reflexivity|]. destruct q'; [congruence|exact I].
      * apply addresses_from_head in Hq. destruct Hq as (i & p' & -> & Hi').
        simpl. left. lia.
    + apply StronglySorted_app_2.
      * intros p q Hp Hq.
        apply list_elem_of_In, in_map_iff in Hp. destruct Hp as (p' & <- & _).
        apply addresses_from_head in Hq. destruct Hq as (i & q' & -> & Hi').
        simpl. left. lia.
      * apply StronglySorted_map_cons, Hi.
      * apply Hr.
  - intros f l Hl. rewrite addresses_item_eq. apply Hl.
Qed.

Lemma StronglySorted_NoDup (l : list (list nat)) :
  StronglySorted addr_lt l -> NoDup l.
Proof.
  induction 1 as [|p l Hl IH Hp]; constructor; [|exact IH].
  intros Hin. rewrite Forall_forall in Hp. exact (addr_lt_irrefl p (Hp p Hin)).
Qed.

Lemma addresses_from_items {A : Type} (its : list (TreeItem A)) :
  forall pre : list (TreeItem A),
    List.map (item_at (pre ++ its)) (addresses_from (length pre) its)
    = List.map Some (iter_items its).
Proof.
  pattern its.
  apply (forest_ind (fun item =>
           List.map (item_at (items item)) (addresses_item item)
           = List.map Some (iter_items (items item)))).
  - reflexivity.
  - intros item rest Hi Hr pre.
    rewrite iter_items_cons. simpl addresses_from.
    rewrite !map_cons, !List.map_app. f_equal; [|f_equal].
    + simpl. rewrite list_lookup_middle by reflexivity. reflexivity.
    + rewrite List.map_map. rewrite <- Hi. apply map_ext_in.
      intros p Hp. apply list_elem_of_In, addresses_item_nonempty in Hp.
      simpl. rewrite list_lookup_middle by reflexivity.
      destruct p; [congruence|reflexivity].
    + specialize (Hr (pre ++ [item])).
      rewrite <- app_assoc in Hr. simpl in Hr.
      rewrite length_app in Hr. simpl in Hr.
      replace (length pre + 1)%nat with (S (length pre)) in Hr by lia.
      exact Hr.
  - intros f l Hl. rewrite addresses_item_eq. exact (Hl []).
Qed.

Lemma addresses_from_valid {A : Type} (its : list (TreeItem A)) :
  forall (k i : nat) (p : list nat),
    ((k + i)%nat :: p) ∈ addresses_from k its <-> is_Some (item_at its (i :: p)).
Proof.
  pattern its.
  apply (forest_ind (fun item => forall p : list nat,
           p ∈ addresses_item item <-> is_Some (item_at (items item) p))).
  - intros k i p. simpl. split; [intros H; inversion H|].
    intros [x Hx]. discriminate.
  - intros item rest Hi Hr k i p. simpl addresses_from.
    rewrite elem_of_cons, elem_of_app. destruct i as [|i].
    + replace (k + 0)%nat with k by lia. simpl. split.
      * intros [H|[H|H]].
        -- injection H as ->. eauto.
        -- apply list_elem_of_In, in_map_iff in H. destruct H as (p' & Heq & Hp').
           injection Heq as ->. apply list_elem_of_In in Hp'.
           pose proof (addresses_item_nonempty _ _ Hp') as Hne.
           apply Hi in Hp'. destruct p; [congruence|exact Hp'].
        -- apply addresses_from_head in H. destruct H as (j & p' & Heq & Hj).
           injection Heq as -> ->. lia.
      * intros H. destruct p as [|j p]; [left; reflexivity|].
        right. left. apply list_elem_of_In, in_map_iff.
        exists (j :: p). split; [reflexivity|]. apply list_elem_of_In, Hi, H.
    + replace (k + S i)%nat with (S k + i)%nat by lia.
      rewrite <- (Hr (S k) i p). split.
      * intros [H|[H|H]].
        -- injection H as H _. lia.
        -- apply list_elem_of_In, in_map_iff in H. destruct H as (p' & Heq & _).
           injection Heq as Heq _. lia.
        -- exact H.
      * intros H. right. right. exact H.
  - intros f l Hl p. rewrite addresses_item_eq. simpl items.
    split.
    + intros H. destruct (addresses_from_head _ _ _ H) as (i & p' & -> & _).
      apply (Hl O i p'), H.
    + intros H. destruct p as [|i p']; [destruct H as [x Hx]; discriminate|].
      apply (Hl O i p'), H.
Qed.

Lemma addr_lt_asym (p q : list nat) : addr_lt p q -> ~ addr_lt q p.
Proof.
  revert q. induction p as [|i p IH]; intros [|j q]; simpl; try tauto.
  intros [H|[-> H]] [H'|[E H']]; try lia. exact (IH q H H').
Qed.

Lemma StronglySorted_lookup_lt {A : Type} (R : A -> A -> Prop) (l : list A)
    (i j : nat) (x y : A) :
  StronglySorted R l -> l !! i = Some x -> l !! j = Some y -> (i < j)%nat -> R x y.
Proof.
  intros Hl. revert i j. induction Hl as [|z l Hl IH Hz]; intros i j Hi Hj Hij.
  - discriminate.
  - destruct j as [|j]; [lia|]. destruct i as [|i].
    + injection Hi as ->. rewrite Forall_forall in Hz.
      apply Hz. apply list_elem_of_lookup. exists j. exact Hj.
    + apply (IH i j); [exact Hi|exact Hj|lia].
Qed.

(** In a list sorted in pre-order, what comes first in pre-order is found
    at the smaller position. *)
Lemma preorder_position (l : list (list nat)) (i j : nat) (p q : list nat) :
  StronglySorted addr_lt l -> l !! i = Some p -> l !! j = Some q ->
  addr_lt p q -> (i < j)%nat.
Proof.
  intros Hl Hi Hj Hpq.
  destruct (Nat.lt_trichotomy i j) as [H|[H|H]]; [exact H| |].
  - subst j. rewrite Hi in Hj. injection Hj as ->.
    destruct (addr_lt_irrefl _ Hpq).
  - destruct (addr_lt_asym _ _ Hpq).
    exact (StronglySorted_lookup_lt _ _ _ _ _ _ Hl Hj Hi H).
Qed.

(** C9 (as the code has it): a tree item built from a descriptor without
    the ['items'] field has no subitems, while a collection is built from
    [data['items']] and a reply without that field raises [KeyError]; with
    the field present the collection holds one item per descriptor. *)
Theorem missing_items_field {A : Type} (f : A) :
  TreeItem_init (mkItemData f None) = mkTreeItem f []
  /\ items (TreeItem_init (mkItemData f None)) = []
  /\ TreeItems_init (@mkItemsData A None) = Raise (KeyError "items")
  /\ forall ds : list (item_data A),
       TreeItems_init (mkItemsData (Some ds)) = Ok (mkTreeItems (List.map TreeItem_init ds)).
Proof. repeat split. Qed.

(** C9 does not hold for collections: a reply without the ['items']
    field does not give an empty collection. *)
Lemma TreeItems_init_requires_items :
  ~ (forall data : items_data ModelFields,
       reply_items data = None ->
       exists t, TreeItems_init data = Ok t /\ top_items t = []).
Proof.
  intros H. destruct (H (mkItemsData None) eq_refl) as (t & Ht & _).
  discriminate Ht.
Qed.

(** C3: iterating a collection yields every node once, in pre-order.
    - [__iter] yields an item, then its whole subtree, then goes on with
      the next sibling;
    - there is one entry per node;
    - the entries are the nodes found at the addresses of the tree, every
      address of a node is listed, and none twice;
    - the addresses come in pre-order, so the node at an address is
      yielded before the nodes at the addresses that extend it (its
      descendants) and before those that branch off to a later sibling
      (its whole subtree comes before the next sibling);
    - the generator, resumed step by step, produces exactly this sequence
      and then stops; it only consumes its own frames, the tree is a value
      that every new iteration starts from again. *)
Theorem TreeItems_iter_preorder {A : Type} (self : TreeItems A) :
  (forall (item : TreeItem A) (rest : list (TreeItem A)),
      iter_items (item :: rest) = item :: iter_items (items item) ++ iter_items rest)
  /\ length (TreeItems_iter self) = node_count (top_items self)
  /\ (List.map (item_at (top_items self)) (addresses (top_items self))
        = List.map Some (TreeItems_iter self)
      /\ NoDup (addresses (top_items self))
      /\ forall p : list nat,
           p ∈ addresses (top_items self) <-> is_Some (item_at (top_items self) p))
  /\ (StronglySorted addr_lt (addresses (top_items self))
      /\ (forall (i j : nat) (p q : list nat),
             addresses (top_items self) !! i = Some p ->
             addresses (top_items self) !! j = Some q ->
             addr_lt p q -> (i < j)%nat)
      /\ (forall p q : list nat, q <> [] -> addr_lt p (p ++ q))
      /\ (forall (pre p q : list nat) (i j : nat),
             (i < j)%nat -> addr_lt (pre ++ i :: p) (pre ++ j :: q)))
  /\ (pending (TreeItems_iter_start self) = TreeItems_iter self
      /\ forall g : generator A,
           match next g with
           | Some (item, g') => pending g = item :: pending g'
           | None => pending g = []
           end).
Proof.
  split; [exact iter_items_cons|].
  split; [apply iter_items_length|].
  split; [split; [|split]|].
  - exact (addresses_from_items (top_items self) []).
  - apply StronglySorted_NoDup, addresses_from_sorted.
  - intros p. unfold addresses. split.
    + intros H. destruct (addresses_from_head _ _ _ H) as (i & p' & -> & _).
      apply (addresses_from_valid (top_items self) O i p'), H.
    + intros H. destruct p as [|i p']; [destruct H as [x Hx]; discriminate|].
      apply (addresses_from_valid (top_items self) O i p'), H.
  - split; [split; [|split; [|split]]|split].
    + apply addresses_from_sorted.
    + intros i j p q. apply preorder_position, addresses_from_sorted.
    + exact addr_lt_extend.
    + exact addr_lt_branch.
    + unfold TreeItems_iter_start, TreeItems_iter. simpl. apply app_nil_r.
    + exact next_pending.
Qed.

Lemma TreeItems_iter_preorder_witness :
  [1%nat] <> []
  /\ addr_lt [0%nat] ([0%nat] ++ [1%nat])
  /\ (0 < 1)%nat
  /\ addr_lt ([] ++ [0%nat]) ([] ++ [1%nat])
  /\ length (TreeItems_iter scenario_tree) = 3%nat
  /\ (0 < 2)%nat.
Proof.
  destruct (TreeItems_iter_preorder scenario_tree)
    as (_ & Hlen & _ & (_ & Hpos & Hext & Hbranch) & _).
  split; [discriminate|]. split; [apply Hext; discriminate|].
  split; [lia|]. split; [apply (Hbranch [] [] []); lia|].
  split; [exact Hlen|].
  apply (Hpos 0%nat 2%nat [0%nat] [0%nat; 1%nat]); [reflexivity|reflexivity|].
  simpl. right. split; [reflexivity|exact I].
Defined.

(** ** Dispatch *)

Lemma walk_chain_first_registered (registry : gmap string cls) (c : cls)
    (chain : list string) :
  walk_chain registry c chain =
  match first_registered registry chain with
  | Some (_, registered) => if decide (c = registered) then None else Some registered
  | None => None
  end.
Proof.
  induction chain as [|cppcls rest IH]; simpl; [reflexivity|].
  destruct (registry !! cppcls); [reflexivity|exact IH].
Qed.

(** The first registered name of the chain is in the registry, and no
    earlier name of the chain is. *)
Lemma first_registered_spec (registry : gmap string cls) (chain : list string)
    (name : string) (registered : cls) :
  first_registered registry chain = Some (name, registered) <->
  exists before after,
    chain = before ++ name :: after
    /\ registry !! name = Some registered
    /\ Forall (fun n => registry !! n = None) before.
Proof.
  induction chain as [|cppcls rest IH]; simpl.
  - split; [discriminate|]. intros (before & after & H & _). destruct before; discriminate.
  - destruct (registry !! cppcls) as [r|] eqn:Hr.
    + split.
      * intros H. injection H as <- <-. exists [], rest. auto.
      * intros (before & after & Hc & Hn & Hb). destruct before as [|b before].
        -- injection Hc as -> ->. congruence.
        -- injection Hc as -> ->. inversion Hb; congruence.
    + rewrite IH. split.
      * intros (before & after & -> & Hn & Hb). exists (cppcls :: before), after.
        repeat split; auto.
      * intros (before & after & Hc & Hn & Hb). destruct before as [|b before].
        -- injection Hc as -> ->. congruence.
        -- injection Hc as -> ->. inversion Hb; subst. exists before, after. auto.
Qed.

(** Instantiation always ends: two nested calls are the most
    [__call__] ever needs. *)
Lemma WidgetMetaClass_call_total (registry : gmap string cls) (c : cls)
    (data : descriptor) :
  exists inst, forall fuel, (2 <= fuel)%nat ->
    WidgetMetaClass_call fuel registry c data = Some inst.
Proof.
  destruct (first_registered registry (default [] (classes data)))
    as [[name registered]|] eqn:Hf.
  - destruct (decide (c = registered)) as [Heq|Hne].
    + exists (Object_init c data). intros [|fuel] Hfuel; [lia|]. cbn [WidgetMetaClass_call].
      rewrite walk_chain_first_registered, Hf. now rewrite decide_True by exact Heq.
    + exists (Object_init registered data). intros [|[|fuel]] Hfuel; try lia. cbn [WidgetMetaClass_call].
      rewrite walk_chain_first_registered, Hf.
      rewrite decide_False by exact Hne.
      rewrite walk_chain_first_registered, Hf.
      now rewrite decide_True by reflexivity.
  - exists (Object_init c data). intros [|fuel] Hfuel; [lia|]. cbn [WidgetMetaClass_call].
    now rewrite walk_chain_first_registered, Hf.
Qed.

(** C1: the most derived registered class wins.  When the first name of
    the class chain that the registry knows is registered to a class other
    than the one being instantiated, [__call__] calls that class with the
    same descriptor and returns what it returns, which is an instance of
    that class.  For the chain QTableView, QAbstractItemView, QWidget with
    the two views registered, instantiating any class gives a
    [TableView]. *)
Theorem dispatch_most_derived (registry : gmap string cls) (c : cls)
    (data : descriptor) (name : string) (registered : cls) (fuel : nat) :
  first_registered registry (default [] (classes data)) = Some (name, registered) ->
  c <> registered ->
  (2 <= fuel)%nat ->
  WidgetMetaClass_call fuel registry c data
    = WidgetMetaClass_call (fuel - 1) registry registered data
  /\ WidgetMetaClass_call fuel registry c data = Some (Object_init registered data)
  /\ (forall requested : cls,
        WidgetMetaClass_call fuel scenario_registry requested table_view_data
        = Some (Object_init TableView table_view_data))
  /\ new_instance Widget table_view_data = Ok (Object_init TableView table_view_data).
Proof.
  intros Hf Hne Hfuel. destruct fuel as [|[|fuel]]; try lia.
  assert (Hstep : WidgetMetaClass_call (S (S fuel)) registry c data
                  = WidgetMetaClass_call (S fuel) registry registered data).
  { cbn [WidgetMetaClass_call]. rewrite walk_chain_first_registered, Hf.
    now rewrite decide_False by exact Hne. }
  assert (Hin : WidgetMetaClass_call (S fuel) registry registered data
                = Some (Object_init registered data)).
  { cbn [WidgetMetaClass_call]. rewrite walk_chain_first_registered, Hf.
    now rewrite decide_True by reflexivity. }
  split; [|split; [|split]].
  - replace (S (S fuel) - 1)%nat with (S fuel) by lia. exact Hstep.
  - now rewrite Hstep.
  - intros requested. destruct requested; reflexivity.
  - reflexivity.
Qed.

Lemma dispatch_most_derived_witness :
  first_registered cpp_classes (default [] (classes table_view_data))
    = Some ("QTableView", TableView)
  /\ Object <> TableView
  /\ WidgetMetaClass_call 2 cpp_classes Object table_view_data
     = Some (Object_init TableView table_view_data).
Proof.
  split; [reflexivity|]. split; [discriminate|].
  apply (dispatch_most_derived cpp_classes Object table_view_data
           "QTableView" TableView 2); [reflexivity | discriminate | lia].
Defined.

(** C4: when the first name of the class chain that the registry knows
    is registered to the very class being instantiated, the walk stops
    there ([break]) and the object is built by that class itself, with no
    further call: one call is enough. *)
Theorem dispatch_self_identity (registry : gmap string cls) (c : cls)
    (data : descriptor) (name : string) (fuel : nat) :
  first_registered registry (default [] (classes data)) = Some (name, c) ->
  (1 <= fuel)%nat ->
  walk_chain registry c (default [] (classes data)) = None
  /\ WidgetMetaClass_call fuel registry c data = Some (Object_init c data)
  /\ class_of (Object_init c data) = c.
Proof.
  intros Hf Hfuel.
  assert (Hw : walk_chain registry c (default [] (classes data)) = None).
  { rewrite walk_chain_first_registered, Hf. now rewrite decide_True by reflexivity. }
  split; [exact Hw|]. split; [|reflexivity].
  destruct fuel as [|fuel]; [lia|]. cbn [WidgetMetaClass_call]. now rewrite Hw.
Qed.

Lemma dispatch_self_identity_witness :
  first_registered cpp_classes (default [] (classes table_view_data))
    = Some ("QTableView", TableView)
  /\ WidgetMetaClass_call 1 cpp_classes TableView table_view_data
     = Some (Object_init TableView table_view_data).
Proof.
  split; [reflexivity|].
  apply (dispatch_self_identity cpp_classes TableView table_view_data "QTableView" 1);
    [reflexivity | lia].
Defined.

(** ** The command channel: what a computation sends *)

(** Unfolds the plumbing of [M] in the goal. *)
Ltac run_M :=
  unfold mbind, M_bind, mret, M_ret, lift, raise, send_command, sleep, time; cbn.

Lemma send_command_eq (cmd : command) (w : world) :
  send_command cmd w = (server w (now w) (sent w ++ [cmd]), after_command cmd w).
Proof. reflexivity. Qed.

Lemma Properties_call_eq (obj : instance) (w : world) :
  Properties_call obj w =
  (match server w (now w) (sent w ++ [object_properties (oid (attrs obj))]) with
   | Ok r => as_properties r
   | Raise e => Raise e
   end,
   after_command (object_properties (oid (attrs obj))) w).
Proof.
  unfold Properties_call. run_M.
  destruct (server w (now w) (sent w ++ [object_properties (oid (attrs obj))]));
    reflexivity.
Qed.

Lemma Object_set_properties_eq (self : instance) (ps : gmap string pyval) (w : world) :
  ps !! "self" = None ->
  Object_set_properties self ps w =
  (match server w (now w) (sent w ++ [object_set_properties (oid (attrs self)) ps]) with
   | Ok _ => Ok tt
   | Raise e => Raise e
   end,
   after_command (object_set_properties (oid (attrs self)) ps) w).
Proof.
  intros Hself. unfold Object_set_properties. rewrite Hself. run_M.
  destruct (server w (now w) (sent w ++ [object_set_properties (oid (attrs self)) ps]));
    reflexivity.
Qed.

Lemma only_sends_ret {A : Type} (P : command -> Prop) (a : A) : only_sends P (mret a).
Proof. intros w. exists []. split; [symmetry; apply app_nil_r|constructor]. Qed.

Lemma only_sends_bind {A B : Type} (P : command -> Prop) (m : M A) (f : A -> M B) :
  only_sends P m -> (forall a, only_sends P (f a)) -> only_sends P (m ≫= f).
Proof.
  intros Hm Hf w. unfold mbind, M_bind.
  destruct (Hm w) as (l1 & H1 & HP1). destruct (m w) as [[a|e] w1]; simpl in *.
  - destruct (Hf a w1) as (l2 & H2 & HP2). exists (l1 ++ l2). split.
    + rewrite H2, H1. symmetry. apply app_assoc.
    + apply Forall_app. split; assumption.
  - exists l1. split; assumption.
Qed.

Lemma only_sends_send (P : command -> Prop) (cmd : command) :
  P cmd -> only_sends P (send_command cmd).
Proof. intros H w. exists [cmd]. split; [reflexivity|]. constructor; [exact H|constructor]. Qed.

Lemma only_sends_silent {A : Type} (P : command -> Prop) (m : M A) :
  (forall w, sent (m w).2 = sent w) -> only_sends P m.
Proof. intros H w. exists []. rewrite H. split; [symmetry; apply app_nil_r|constructor]. Qed.

Lemma check_props_only_queries (self : instance) (props : gmap string pyval) :
  only_sends (is_query (oid (attrs self))) (check_props self props).
Proof.
  unfold check_props, Properties_call.
  apply only_sends_bind.
  - apply only_sends_bind; [apply only_sends_send; reflexivity|].
    intros r. apply only_sends_silent. reflexivity.
  - intros d. apply only_sends_ret.
Qed.

Lemma wait_for_loop_only_sends (P : command -> Prop) (predicate : M bool)
    (start timeout poll_interval : Z) (rounds : nat) :
  only_sends P predicate ->
  only_sends P (wait_for_loop rounds predicate start timeout poll_interval).
Proof.
  intros Hp. induction rounds as [|rounds IH]; simpl.
  - apply only_sends_ret.
  - apply only_sends_bind; [apply only_sends_silent; reflexivity|]. intros _.
    apply only_sends_bind; [exact Hp|]. intros [|]; [apply only_sends_ret|].
    apply only_sends_bind; [apply only_sends_silent; reflexivity|]. intros t.
    destruct (timeout <=? t - start)%Z; [apply only_sends_ret|exact IH].
Qed.

Lemma wait_for_only_sends (P : command -> Prop) (predicate : M bool)
    (timeout poll_interval : Z) :
  only_sends P predicate -> only_sends P (wait_for predicate timeout poll_interval).
Proof.
  intros Hp. unfold wait_for.
  apply only_sends_bind; [apply only_sends_silent; reflexivity|]. intros start.
  apply only_sends_bind; [exact Hp|]. intros [|]; [apply only_sends_ret|].
  apply wait_for_loop_only_sends, Hp.
Qed.

(** ** The property proxy *)

Lemma Properties_getitem_eq (obj : instance) (name : string) (w : world) :
  Properties_getitem obj name w =
  (match server w (now w) (sent w ++ [object_properties (oid (attrs obj))]) with
   | Ok r =>
       match as_properties r with
       | Ok d => getitem d name
       | Raise e => Raise e
       end
   | Raise e => Raise e
   end,
   after_command (object_properties (oid (attrs obj))) w).
Proof.
  unfold Properties_getitem, mbind, M_bind. rewrite Properties_call_eq.
  destruct (server w (now w) (sent w ++ [object_properties (oid (attrs obj))]))
    as [r|e]; [|reflexivity].
  destruct (as_properties r); reflexivity.
Qed.

Lemma singleton_self (name : string) (v : pyval) :
  ({[ name := v ]} : gmap string pyval) !! "self" = if String.eqb name "self" then Some v else None.
Proof.
  destruct (String.eqb name "self") eqn:H.
  - apply String.eqb_eq in H. subst name. apply lookup_singleton_eq.
  - apply String.eqb_neq in H. now apply lookup_singleton_ne.
Qed.

(** C6 (as the code has it): the access styles of the property proxy.
    A bulk read [proxy()] is one ['object_properties'] command and its
    result is what the server answers then; nothing is kept.  The item
    read [proxy[name]] is, for every name, the value under the name in
    such a fresh answer ([KeyError] when it has none), by one query.  The
    attribute read [proxy.name] is the same for the names that ordinary
    attribute lookup does not find on the proxy; a name it finds (the
    object the proxy wraps, a method, what every object has) is answered
    by the proxy itself and nothing is sent.  The item write, the
    attribute write and [set_property] are one and the same
    ['object_set_properties'] command with the single entry, for every
    name but [self]: that keyword collides with the parameter of
    [set_properties], and all three raise [TypeError] with nothing sent. *)
Theorem property_proxy_access_styles (interpreter : string -> bool) (obj : instance)
    (name : string) (v : pyval) (w : world) :
  let query := object_properties (oid (attrs obj)) in
  let write := object_set_properties (oid (attrs obj)) {[ name := v ]} in
  let fresh :=
    match server w (now w) (sent w ++ [query]) with
    | Ok r =>
        match as_properties r with
        | Ok d => getitem d name
        | Raise e => Raise e
        end
    | Raise e => Raise e
    end in
  Properties_call obj w
    = (match server w (now w) (sent w ++ [query]) with
       | Ok r => as_properties r
       | Raise e => Raise e
       end, after_command query w)
  /\ Properties_getitem obj name w = (fresh, after_command query w)
  /\ (ordinary_lookup interpreter name = false ->
      Properties_attribute_read interpreter obj name w
      = (match fresh with Ok x => Ok (Remote x) | Raise e => Raise e end,
         after_command query w))
  /\ (ordinary_lookup interpreter name = true ->
      Properties_attribute_read interpreter obj name w = (Ok (Local name), w))
  /\ (name <> "self" ->
      let sent_once :=
        (match server w (now w) (sent w ++ [write]) with
         | Ok _ => Ok tt
         | Raise e => Raise e
         end, after_command write w) in
      Object_set_property obj name v w = sent_once
      /\ Properties_setitem obj name v w = sent_once
      /\ Properties_setattr obj name v w = sent_once)
  /\ (name = "self" ->
      exists msg,
        Object_set_property obj name v w = (Raise (TypeError msg), w)
        /\ Properties_setitem obj name v w = (Raise (TypeError msg), w)
        /\ Properties_setattr obj name v w = (Raise (TypeError msg), w)).
Proof.
  cbv zeta.
  split; [apply Properties_call_eq|].
  split; [apply Properties_getitem_eq|].
  split; [|split; [|split]].
  - intros Hlookup. unfold Properties_attribute_read. rewrite Hlookup.
    unfold mbind, M_bind.
    change (Properties_getattr obj name) with (Properties_getitem obj name).
    rewrite Properties_getitem_eq.
    destruct (server w (now w) (sent w ++ [object_properties (oid (attrs obj))]))
      as [r|e]; [|reflexivity].
    destruct (as_properties r) as [d|e]; [|reflexivity].
    destruct (getitem d name); reflexivity.
  - intros Hlookup. unfold Properties_attribute_read. now rewrite Hlookup.
  - intros Hname.
    assert (H : Object_set_properties obj {[ name := v ]} w
                = (match server w (now w)
                           (sent w ++ [object_set_properties (oid (attrs obj)) {[ name := v ]}]) with
                   | Ok _ => Ok tt
                   | Raise e => Raise e
                   end,
                   after_command (object_set_properties (oid (attrs obj)) {[ name := v ]}) w)).
    { apply Object_set_properties_eq. rewrite singleton_self.
      apply String.eqb_neq in Hname. now rewrite Hname. }
    repeat split; exact H.
  - intros ->.
    exists "got multiple values for argument 'self'".
    assert (H : Object_set_properties obj {[ "self" := v ]} w
                = (Raise (TypeError "got multiple values for argument 'self'"),
                   w)).
    { unfold Object_set_properties. rewrite lookup_singleton_eq. reflexivity. }
    repeat split; exact H.
Qed.

Lemma property_proxy_access_styles_witness :
  ordinary_lookup cpython_attributes "text" = false
  /\ ordinary_lookup cpython_attributes "__doc__" = true
  /\ "text" <> "self"
  /\ Properties_attribute_read cpython_attributes combo "enabled" combo_world
     = (Ok (Remote (PBool true)), after_command (object_properties 7) combo_world)
  /\ Properties_attribute_read cpython_attributes combo "__doc__" combo_world
     = (Ok (Local "__doc__"), combo_world)
  /\ Properties_setattr combo "text" (PStr "hi") combo_world
     = (Ok tt, after_command (object_set_properties 7 {[ "text" := PStr "hi" ]}) combo_world)
  /\ exists msg, Properties_setattr combo "self" (PStr "hi") combo_world
                 = (Raise (TypeError msg), combo_world).
Proof.
  split; [reflexivity|]. split; [reflexivity|]. split; [discriminate|].
  destruct (property_proxy_access_styles cpython_attributes combo "enabled" (PStr "hi")
              combo_world) as (_ & _ & Hremote & _).
  destruct (property_proxy_access_styles cpython_attributes combo "__doc__" (PStr "hi")
              combo_world) as (_ & _ & _ & Hlocal & _).
  destruct (property_proxy_access_styles cpython_attributes combo "text" (PStr "hi")
              combo_world) as (_ & _ & _ & _ & Hwrite & _).
  destruct (property_proxy_access_styles cpython_attributes combo "self" (PStr "hi")
              combo_world) as (_ & _ & _ & _ & _ & Hself).
  split; [exact (Hremote eq_refl)|]. split; [exact (Hlocal eq_refl)|].
  split.
  - destruct Hwrite as (_ & _ & Hattr); [discriminate|]. exact Hattr.
  - destruct (Hself eq_refl) as (msg & _ & _ & Hattr). exists msg. exact Hattr.
Defined.

(** C6 does not hold for every name.  An attribute read of the name
    under which the proxy keeps its object is answered by the proxy, with
    no query, whatever the interpreter adds to the names of an object; and
    a write of the name [self] raises before anything is sent. *)
Lemma proxy_names_not_remote :
  ~ (forall (interpreter : string -> bool) (obj : instance) (name : string) (w : world),
       sent (Properties_attribute_read interpreter obj name w).2
       = sent w ++ [object_properties (oid (attrs obj))])
  /\ ~ (forall (obj : instance) (name : string) (v : pyval) (w : world),
         sent (Properties_setitem obj name v w).2
         = sent w ++ [object_set_properties (oid (attrs obj)) {[ name := v ]}])
  /\ (forall interpreter : string -> bool,
        Properties_attribute_read interpreter combo "_Properties__obj" combo_world
        = (Ok (Local "_Properties__obj"), combo_world))
  /\ Properties_getitem combo "_Properties__obj" combo_world
     = (Raise (KeyError "_Properties__obj"), after_command (object_properties 7) combo_world)
  /\ exists msg, Properties_setitem combo "self" (PInt 1) combo_world
                 = (Raise (TypeError msg), combo_world).
Proof.
  split; [|split; [|split; [|split]]].
  - intros H. specialize (H (fun _ => false) combo "_Properties__obj" combo_world).
    discriminate H.
  - intros H. specialize (H combo "self" (PInt 1) combo_world). discriminate H.
  - intros interpreter. reflexivity.
  - reflexivity.
  - eexists. reflexivity.
Qed.

(** A write is seen by the next read, and a read before it sees the old
    value: reads are not served from a cache. *)
Example property_round_trip :
  (Properties_getitem combo "text" combo_world).1 = Raise (KeyError "text")
  /\ (Object_set_property combo "text" (PStr "hi");;
      Properties_getitem combo "text") combo_world
     = (Ok (PStr "hi"),
        {| server := server combo_world;
           sent := [object_set_properties 7 {[ "text" := PStr "hi" ]};
                    object_properties 7];
           now := 0 |}).
Proof. split; reflexivity. Qed.

(** ** Waiting for properties *)

Lemma forallb_Permutation {A : Type} (f : A -> bool) (l1 l2 : list A) :
  l1 ≡ₚ l2 -> forallb f l1 = forallb f l2.
Proof.
  induction 1 as [|x l1 l2 _ IH|x y l|l1 l2 l3 _ IH1 _ IH2]; simpl.
  - reflexivity.
  - now rewrite IH.
  - destruct (f x), (f y); reflexivity.
  - congruence.
Qed.

Lemma prop_satisfied_absent_None (snapshot : gmap string pyval) (k : string) :
  snapshot !! k = None -> prop_satisfied snapshot k PNone = true.
Proof. intros H. unfold prop_satisfied. rewrite H. reflexivity. Qed.

Lemma check_props_eq (self : instance) (props : gmap string pyval) (w : world) :
  check_props self props w =
  (match server w (now w) (sent w ++ [object_properties (oid (attrs self))]) with
   | Ok r =>
       match as_properties r with
       | Ok properties =>
           Ok (forallb (fun kv => prop_satisfied properties kv.1 kv.2) (map_to_list props))
       | Raise e => Raise e
       end
   | Raise e => Raise e
   end,
   after_command (object_properties (oid (attrs self))) w).
Proof.
  unfold check_props, mbind, M_bind. rewrite Properties_call_eq.
  destruct (server w (now w) (sent w ++ [object_properties (oid (attrs self))]))
    as [r|e]; [|reflexivity].
  destruct (as_properties r); reflexivity.
Qed.

(** A predicate that holds at its first evaluation ends the wait there:
    no sleep, no second evaluation. *)
Lemma wait_for_first_poll (predicate : M bool) (timeout poll_interval : Z) (w w' : world) :
  predicate w = (Ok true, w') ->
  wait_for predicate timeout poll_interval w = (Ok true, w').
Proof. intros H. unfold wait_for. run_M. rewrite H. reflexivity. Qed.

(** C10: an expected value of [None] matches an absent key.  With [k]
    expected to be [None] and a snapshot of the properties that has no
    [k], the entry counts as satisfied: the outcome of the check is that
    of the other entries alone.  So when the server answers the first
    query with such a snapshot, [wait_for_properties] of the single entry
    returns true on that first poll: one query sent, the clock
    untouched. *)
Theorem wait_for_properties_None_matches_absent (self : instance)
    (props snapshot : gmap string pyval) (k : string) (timeout interval : Z) (w : world) :
  props !! k = Some PNone ->
  snapshot !! k = None ->
  server w (now w) (sent w ++ [object_properties (oid (attrs self))])
    = Ok (RProperties snapshot) ->
  prop_satisfied snapshot k PNone = true
  /\ (check_props self props w).1 = (check_props self (delete k props) w).1
  /\ Object_wait_for_properties self {[ k := PNone ]} timeout interval w
     = (Ok true, after_command (object_properties (oid (attrs self))) w).
Proof.
  intros Hk Hs Hreply.
  pose proof (prop_satisfied_absent_None snapshot k Hs) as Hsat.
  split; [exact Hsat|]. split.
  - rewrite !check_props_eq, Hreply. simpl. f_equal.
    rewrite <- (forallb_Permutation _ _ _ (map_to_list_delete props k PNone Hk)).
    simpl. now rewrite Hsat.
  - unfold Object_wait_for_properties. apply wait_for_first_poll.
    rewrite check_props_eq, Hreply. simpl. rewrite map_to_list_singleton. simpl.
    now rewrite Hsat.
Qed.

Lemma wait_for_properties_None_matches_absent_witness :
  ({[ "nope" := PNone; "enabled" := PBool true ]} : gmap string pyval) !! "nope" = Some PNone
  /\ Object_wait_for_properties combo {[ "nope" := PNone ]} 10000 100 combo_world
     = (Ok true, after_command (object_properties 7) combo_world).
Proof.
  split; [reflexivity|].
  apply (wait_for_properties_None_matches_absent combo
           {[ "nope" := PNone; "enabled" := PBool true ]}
           {[ "modelColumn" := PInt 0; "enabled" := PBool true; "visible" := PBool true ]}
           "nope" 10000 100 combo_world); reflexivity.
Defined.

(** ** Click-style operations *)

Lemma mouse_action_invalid (btn : string) :
  btn <> "left" -> btn <> "right" -> btn <> "middle" ->
  mouse_action btn = Raise (ValueError ("Invalid mouse button: " +:+ btn)).
Proof.
  intros Hl Hr Hm. unfold mouse_action.
  apply String.eqb_neq in Hl, Hr, Hm. now rewrite Hl, Hr, Hm.
Qed.

Lemma click_wait_only_queries (self : instance) (wait_for_enabled : Z) :
  only_sends (is_query (oid (attrs self))) (click_wait self wait_for_enabled).
Proof.
  unfold click_wait. destruct (0 <? wait_for_enabled)%Z; [|apply only_sends_ret].
  apply only_sends_bind; [|intros _; apply only_sends_ret].
  apply wait_for_only_sends, check_props_only_queries.
Qed.

Lemma Widget_click_invalid (self : instance) (wait_for_enabled : Z) (btn : string)
    (w : world) :
  mouse_action btn = Raise (ValueError ("Invalid mouse button: " +:+ btn)) ->
  Widget_click self wait_for_enabled btn w =
  (match (click_wait self wait_for_enabled w).1 with
   | Ok _ => Raise (ValueError ("Invalid mouse button: " +:+ btn))
   | Raise e => Raise e
   end,
   (click_wait self wait_for_enabled w).2).
Proof.
  intros Hbtn. unfold Widget_click. fold (click_wait self wait_for_enabled).
  unfold mbind at 1. unfold M_bind.
  destruct (click_wait self wait_for_enabled w) as [[u|e] w']; [|reflexivity].
  rewrite Hbtn. reflexivity.
Qed.

(** C7 (as the code has it): a button outside left, right and middle
    makes every click-style operation raise [ValueError] with the message
    ["Invalid mouse button: "] followed by the button, and the click
    command is never sent.  [GItem.click], [AbstractItemView.click_item]
    and [Widget.click] without a wait raise at once, leaving the world as
    it was.  [Widget.click] with a positive [wait_for_enabled] runs its
    wait first: that sends property queries and nothing else, and the
    error of the button comes after it, unless the wait itself raised. *)
Theorem invalid_button_raises (btn : string) :
  btn <> "left" -> btn <> "right" -> btn <> "middle" ->
  let error := ValueError ("Invalid mouse button: " +:+ btn) in
  (forall (self : GItem) (w : world), GItem_click self btn w = (Raise error, w))
  /\ (forall (self : instance) (item : ModelItem) (origin : string) (x y : Z) (w : world),
         AbstractItemView_click_item self item origin x y btn w = (Raise error, w))
  /\ (forall (self : instance) (wait_for_enabled : Z) (w : world),
         (wait_for_enabled <= 0)%Z ->
         Widget_click self wait_for_enabled btn w = (Raise error, w))
  /\ (forall (self : instance) (wait_for_enabled : Z) (w : world),
         exists queries,
           sent (Widget_click self wait_for_enabled btn w).2 = sent w ++ queries
           /\ Forall (is_query (oid (attrs self))) queries
           /\ ((Widget_click self wait_for_enabled btn w).1 = Raise error
               \/ exists e, (click_wait self wait_for_enabled w).1 = Raise e
                            /\ (Widget_click self wait_for_enabled btn w).1 = Raise e)).
Proof.
  intros Hl Hr Hm error.
  pose proof (mouse_action_invalid btn Hl Hr Hm) as Hbtn. fold error in Hbtn.
  split; [|split; [|split]].
  - intros self w. unfold GItem_click. run_M. now rewrite Hbtn.
  - intros self item origin x y w. unfold AbstractItemView_click_item. run_M.
    now rewrite Hbtn.
  - intros self wait w Hwait. rewrite Widget_click_invalid by exact Hbtn.
    unfold click_wait. apply Z.ltb_ge in Hwait. rewrite Hwait. reflexivity.
  - intros self wait w. rewrite Widget_click_invalid by exact Hbtn.
    destruct (click_wait_only_queries self wait w) as (queries & Hsent & Hq).
    exists queries. simpl. split; [exact Hsent|]. split; [exact Hq|].
    destruct (click_wait self wait w).1 as [u|e]; [left; reflexivity|].
    right. exists e. split; reflexivity.
Qed.

Lemma invalid_button_raises_witness :
  "foo" <> "left" /\ "foo" <> "right" /\ "foo" <> "middle"
  /\ GItem_click some_gitem "foo" combo_world
     = (Raise (ValueError "Invalid mouse button: foo"), combo_world).
Proof.
  split; [discriminate|]. split; [discriminate|]. split; [discriminate|].
  apply (invalid_button_raises "foo"); discriminate.
Defined.

Lemma prefix_append (needle after : string) : String.prefix needle (needle +:+ after) = true.
Proof.
  induction needle as [|c needle IH]; [destruct after; reflexivity|].
  change (String.prefix (String c needle) (String c (needle +:+ after)) = true).
  cbn [String.prefix]. destruct (Ascii.ascii_dec c c); [exact IH|congruence].
Qed.

Lemma contains_occurs (s needle : string) : contains s needle -> occurs needle s = true.
Proof.
  intros (before & after & ->).
  induction before as [|c before IH].
  - change (occurs needle (needle +:+ after) = true).
    destruct (needle +:+ after) eqn:E; cbn [occurs]; rewrite <- E, prefix_append; reflexivity.
  - change (occurs needle (String c (before +:+ needle +:+ after)) = true).
    cbn [occurs]. rewrite IH. apply orb_true_r.
Qed.

(** C7 does not hold as stated: with the default wait, [Widget.click]
    has queried the properties of the widget by the time the unknown
    button is refused, and the message names the button only, none of the
    legal ones. *)
Lemma Widget_click_queries_before_refusing :
  ~ (forall (self : instance) (wait_for_enabled : Z) (btn : string) (w : world),
       btn <> "left" -> btn <> "right" -> btn <> "middle" ->
       sent (Widget_click self wait_for_enabled btn w).2 = sent w)
  /\ Widget_click combo 10000 "foo" combo_world
     = (Raise (ValueError "Invalid mouse button: foo"),
        after_command (object_properties 7) combo_world)
  /\ GItem_click some_gitem "foo" combo_world
     = (Raise (ValueError "Invalid mouse button: foo"), combo_world)
  /\ ~ contains "Invalid mouse button: foo" "left"
  /\ ~ contains "Invalid mouse button: foo" "right"
  /\ ~ contains "Invalid mouse button: foo" "middle".
Proof.
  split; [|split; [reflexivity|split; [reflexivity|]]].
  - intros H.
    specialize (H combo 10000 "foo" combo_world).
    assert (Hsent : sent (Widget_click combo 10000 "foo" combo_world).2
                    = [object_properties 7]) by reflexivity.
    rewrite Hsent in H. discriminate H; discriminate.
  - repeat split; intros H; apply contains_occurs in H; discriminate H.
Qed.

(** ** The combobox *)

Lemma bind_eq {A B : Type} (m : M A) (f : A -> M B) (w : world) :
  (m ≫= f) w =
  match m w with
  | (Ok a, w') => f a w'
  | (Raise e, w') => (Raise e, w')
  end.
Proof. reflexivity. Qed.

Lemma WidgetMetaClass_call_unregistered (registry : gmap string cls) (c : cls)
    (data : descriptor) (fuel : nat) :
  first_registered registry (default [] (classes data)) = None ->
  (1 <= fuel)%nat ->
  WidgetMetaClass_call fuel registry c data = Some (Object_init c data).
Proof.
  intros Hf Hfuel. destruct fuel as [|fuel]; [lia|].
  cbn [WidgetMetaClass_call]. now rewrite walk_chain_first_registered, Hf.
Qed.

Lemma contains_intro (before needle after : string) :
  contains (before +:+ needle +:+ after) needle.
Proof. exists before, after. reflexivity. Qed.

Lemma string_app_assoc (a b c : string) : (a +:+ b) +:+ c = a +:+ (b +:+ c).
Proof. induction a as [|x a IH]; [reflexivity|]. change (String x ((a +:+ b) +:+ c) = String x (a +:+ (b +:+ c))). now rewrite IH. Qed.

Lemma not_in_combobox_contains (text path : string) :
  contains (not_in_combobox text path) text /\ contains (not_in_combobox text path) path.
Proof.
  unfold not_in_combobox. split.
  - apply contains_intro.
  - exists ("The text `" +:+ text +:+ "` is not in the combobox `"), "`".
    now rewrite !string_app_assoc.
Qed.

(** What [set_current_text] does once the server has answered its three
    queries. *)
Lemma set_current_text_eq (self : instance) (text : string) (w : world)
    (properties : gmap string pyval) (model_column : pyval) (model_data : descriptor)
    (ds : list (item_data ModelFields)) :
  let q1 := object_properties (oid (attrs self)) in
  let q2 := model (oid (attrs self)) in
  let q3 := model_items (oid model_data) in
  let w3 := {| server := server w; sent := sent w ++ [q1; q2; q3]; now := now w |} in
  server w (now w) (sent w ++ [q1]) = Ok (RProperties properties) ->
  properties !! "modelColumn" = Some model_column ->
  server w (now w) (sent w ++ [q1; q2]) = Ok (RObject model_data) ->
  first_registered cpp_classes (default [] (classes model_data)) = None ->
  server w (now w) (sent w ++ [q1; q2; q3]) = Ok (RModelItems (mkItemsData (Some ds))) ->
  ComboBox_set_current_text self text w =
  let index :=
    match List.find (combo_test model_column text) (iter_items (List.map TreeItem_init ds)) with
    | Some item => row (fields item)
    | None => -1
    end in
  if (-1 <? index)%Z then Object_set_property self "currentIndex" (PInt index) w3
  else (Raise (AssertionError (not_in_combobox text (path (attrs self)))), w3).
Proof.
  intros q1 q2 q3 w3 H1 Hcol H2 Hreg H3.
  unfold ComboBox_set_current_text.
  rewrite bind_eq, Properties_call_eq. fold q1. rewrite H1. cbn [as_properties].
  rewrite bind_eq. unfold lift at 1, getitem. rewrite Hcol.
  rewrite bind_eq. unfold ComboBox_model. rewrite bind_eq, send_command_eq. fold q2.
  cbn [after_command sent server now]. rewrite <- app_assoc. cbn [app]. rewrite H2.
  rewrite bind_eq. unfold lift at 1. cbn [as_object].
  unfold lift at 1, new_instance.
  rewrite (WidgetMetaClass_call_unregistered _ _ _ _ Hreg) by lia.
  rewrite bind_eq. unfold call_items. cbn [Object_init class_of attrs].
  rewrite decide_True by reflexivity.
  unfold AbstractItemModel_items. rewrite bind_eq, send_command_eq.
  cbn [after_command sent server now attrs Object_init oid]. fold q3.
  rewrite <- !app_assoc. cbn [app]. rewrite H3.
  rewrite bind_eq. unfold lift at 1. cbn [as_model_items].
  unfold lift at 1, TreeItems_init. cbn [reply_items].
  unfold TreeItems_iter. cbn [top_items].
  replace (after_command q3 (after_command q2 (after_command q1 w))) with w3
    by (unfold w3, after_command; cbn [sent server now]; now rewrite <- !app_assoc).
  cbv zeta.
  change (fun item : ModelItem =>
            py_eq model_column (PInt (column (fields item)))
            && String.eqb (value (fields item)) text)
    with (combo_test model_column text).
  destruct (List.find (combo_test model_column text) (iter_items (List.map TreeItem_init ds)))
    as [item|]; [|reflexivity].
  destruct (-1 <? row (fields item))%Z; reflexivity.
Qed.

(** C8: [set_current_text] on a combobox whose server answers the
    property query (with a ['modelColumn']), the model query (with a plain
    item model) and the items query.
    - If some item of the model has the text as its value in the model
      column, then there is such an item, the first in iteration order,
      whose row is written to ['currentIndex'] by one
      ['object_set_properties'] command (rows are not negative).
    - If no item has, the call raises an [AssertionError] whose message
      holds the text and the path of the widget, and nothing is written:
      the three queries are all that was sent. *)
Theorem set_current_text_spec (self : instance) (text : string) (w : world)
    (properties : gmap string pyval) (model_column : pyval) (model_data : descriptor)
    (ds : list (item_data ModelFields)) :
  let q1 := object_properties (oid (attrs self)) in
  let q2 := model (oid (attrs self)) in
  let q3 := model_items (oid model_data) in
  let w3 := {| server := server w; sent := sent w ++ [q1; q2; q3]; now := now w |} in
  let its := iter_items (List.map TreeItem_init ds) in
  server w (now w) (sent w ++ [q1]) = Ok (RProperties properties) ->
  properties !! "modelColumn" = Some model_column ->
  server w (now w) (sent w ++ [q1; q2]) = Ok (RObject model_data) ->
  first_registered cpp_classes (default [] (classes model_data)) = None ->
  server w (now w) (sent w ++ [q1; q2; q3]) = Ok (RModelItems (mkItemsData (Some ds))) ->
  ((exists item, In item its /\ combo_test model_column text item = true) ->
   exists item,
     List.find (combo_test model_column text) its = Some item
     /\ In item its
     /\ py_eq model_column (PInt (column (fields item))) = true
     /\ value (fields item) = text
     /\ ((0 <= row (fields item))%Z ->
         let write := object_set_properties (oid (attrs self))
                        {[ "currentIndex" := PInt (row (fields item)) ]} in
         ComboBox_set_current_text self text w
         = (match server w (now w) (sent w3 ++ [write]) with
            | Ok _ => Ok tt
            | Raise e => Raise e
            end, after_command write w3)))
  /\ ((forall item, In item its -> combo_test model_column text item = false) ->
      ComboBox_set_current_text self text w
      = (Raise (AssertionError (not_in_combobox text (path (attrs self)))), w3)
      /\ contains (not_in_combobox text (path (attrs self))) text
      /\ contains (not_in_combobox text (path (attrs self))) (path (attrs self))).
Proof.
  intros q1 q2 q3 w3 its H1 Hcol H2 Hreg H3.
  pose proof (set_current_text_eq self text w properties model_column model_data ds
                H1 Hcol H2 Hreg H3) as Hrun.
  cbv zeta in Hrun. fold q1 q2 q3 its in Hrun. fold w3 in Hrun.
  split.
  - intros (item0 & Hin0 & Ht0).
    destruct (List.find (combo_test model_column text) its) as [item|] eqn:Hfind.
    + apply find_some in Hfind as Hitem. destruct Hitem as [Hin Ht].
      exists item. split; [reflexivity|]. split; [exact Hin|].
      unfold combo_test in Ht. apply andb_true_iff in Ht as [Hc Hv].
      split; [exact Hc|]. split; [apply String.eqb_eq, Hv|].
      intros Hrow write. rewrite Hrun.
      assert (Hlt : (-1 <? row (fields item))%Z = true) by (apply Z.ltb_lt; lia).
      rewrite Hlt. unfold Object_set_property.
      rewrite Object_set_properties_eq by reflexivity. reflexivity.
    + pose proof (find_none _ _ Hfind item0 Hin0) as Hno. congruence.
  - intros Hnone. split; [|apply not_in_combobox_contains].
    rewrite Hrun.
    destruct (List.find (combo_test model_column text) its) as [item|] eqn:Hfind.
    + apply find_some in Hfind. destruct Hfind as [Hin Ht].
      rewrite (Hnone item Hin) in Ht. discriminate.
    + reflexivity.
Qed.

Lemma set_current_text_spec_witness :
  (exists item, In item (iter_items (List.map TreeItem_init
                                       [leaf_data 0 0 "Red"; leaf_data 1 0 "Blue"]))
                /\ combo_test (PInt 0) "Blue" item = true)
  /\ ComboBox_set_current_text combo "Blue" combo_world
     = (Ok tt,
        {| server := server combo_world;
           sent := [object_properties 7; model 7; model_items 8;
                    object_set_properties 7 {[ "currentIndex" := PInt 1 ]}];
           now := 0 |})
  /\ ComboBox_set_current_text combo "Green" combo_world
     = (Raise (AssertionError "The text `Green` is not in the combobox `win::combo`"),
        {| server := server combo_world;
           sent := [object_properties 7; model 7; model_items 8];
           now := 0 |}).
Proof.
  assert (Hsome : exists item,
             In item (iter_items (List.map TreeItem_init
                                    [leaf_data 0 0 "Red"; leaf_data 1 0 "Blue"]))
             /\ combo_test (PInt 0) "Blue" item = true).
  { exists (leaf 1 0 "Blue"). split; [right; left; reflexivity|reflexivity]. }
  split; [exact Hsome|].
  destruct (set_current_text_spec combo "Blue" combo_world
              {[ "modelColumn" := PInt 0; "enabled" := PBool true; "visible" := PBool true ]}
              (PInt 0) combo_model_data [leaf_data 0 0 "Red"; leaf_data 1 0 "Blue"]
              eq_refl eq_refl eq_refl eq_refl eq_refl) as [Hfound _].
  destruct (set_current_text_spec combo "Green" combo_world
              {[ "modelColumn" := PInt 0; "enabled" := PBool true; "visible" := PBool true ]}
              (PInt 0) combo_model_data [leaf_data 0 0 "Red"; leaf_data 1 0 "Blue"]
              eq_refl eq_refl eq_refl eq_refl eq_refl) as [_ Hmissing].
  split.
  - destruct (Hfound Hsome) as (item & Hfind & _ & _ & _ & Hset).
    injection Hfind as <-. apply Hset. simpl. lia.
  - apply Hmissing. intros item [<-|[<-|[]]]; reflexivity.
Defined.

(** ** Sorting a row *)

Section sorted_facts.
Context {A : Type} (key : A -> Z).

Lemma sorted_insert_Permutation (x : A) (l : list A) :
  sorted_insert key x l ≡ₚ x :: l.
Proof.
  induction l as [|y rest IH]; simpl; [reflexivity|].
  destruct (key x <=? key y)%Z; [reflexivity|].
  rewrite IH. apply perm_swap.
Qed.

Lemma sorted_Permutation (l : list A) : sorted key l ≡ₚ l.
Proof.
  induction l as [|x rest IH]; simpl; [reflexivity|].
  rewrite sorted_insert_Permutation. now rewrite IH.
Qed.

Lemma sorted_insert_StronglySorted (x : A) (l : list A) :
  StronglySorted (key_le key) l -> StronglySorted (key_le key) (sorted_insert key x l).
Proof.
  induction 1 as [|y rest Hrest IH Hy]; simpl.
  - repeat constructor.
  - destruct (key x <=? key y)%Z eqn:Hxy.
    + apply Z.leb_le in Hxy. constructor; [constructor; assumption|].
      constructor; [exact Hxy|].
      eapply Forall_impl; [exact Hy|]. intros z Hz. unfold key_le in *. lia.
    + apply Z.leb_gt in Hxy. constructor; [exact IH|].
      apply Forall_forall. intros z Hz. apply list_elem_of_In in Hz.
      apply (Permutation_in _ (sorted_insert_Permutation x rest)) in Hz.
      destruct Hz as [<-|Hz]; [unfold key_le; lia|].
      rewrite Forall_forall in Hy. apply Hy, list_elem_of_In, Hz.
Qed.

Lemma sorted_StronglySorted (l : list A) : StronglySorted (key_le key) (sorted key l).
Proof.
  induction l as [|x rest IH]; simpl; [constructor|].
  apply sorted_insert_StronglySorted, IH.
Qed.

(** The sort is stable: items with the same key keep their order. *)
Lemma sorted_insert_stable (k : Z) (x : A) (l : list A) :
  StronglySorted (key_le key) l ->
  List.filter (fun y => (key y =? k)%Z) (sorted_insert key x l)
  = List.filter (fun y => (key y =? k)%Z) (x :: l).
Proof.
  induction 1 as [|y rest Hrest IH Hy]; [reflexivity|].
  cbn [sorted_insert]. destruct (key x <=? key y)%Z eqn:Hxy; [reflexivity|].
  apply Z.leb_gt in Hxy. cbn [List.filter] in *. rewrite IH.
  destruct (key x =? k)%Z eqn:Hx, (key y =? k)%Z eqn:Hyk; try reflexivity.
  apply Z.eqb_eq in Hx, Hyk. lia.
Qed.

Lemma sorted_stable (k : Z) (l : list A) :
  List.filter (fun y => (key y =? k)%Z) (sorted key l)
  = List.filter (fun y => (key y =? k)%Z) l.
Proof.
  induction l as [|x rest IH]; [reflexivity|].
  cbn [sorted]. rewrite sorted_insert_stable by apply sorted_StronglySorted.
  cbn [List.filter]. now rewrite IH.
Qed.
End sorted_facts.

(** A returned row: the items of the level on the row of the matched
    item, in ascending order of their column. *)
Lemma row_of_spec (level : list ModelItem) (item_ : ModelItem) :
  StronglySorted (key_le (fun it => column (fields it))) (row_of level item_)
  /\ row_of level item_
     ≡ₚ List.filter (fun it => (row (fields it) =? row (fields item_))%Z) level
  /\ forall it, In it (row_of level item_)
                <-> In it level /\ row (fields it) = row (fields item_).
Proof.
  unfold row_of. split; [apply sorted_StronglySorted|].
  split; [apply sorted_Permutation|].
  intros it.
  transitivity (In it (List.filter (fun x => (row (fields x) =? row (fields item_))%Z) level)).
  - split; apply Permutation_in; [|symmetry]; apply sorted_Permutation.
  - rewrite filter_In, Z.eqb_eq. reflexivity.
Qed.

(** ** Named paths *)

Lemma find_app {A : Type} (f : A -> bool) (l1 l2 : list A) :
  List.find f (l1 ++ l2) =
  match List.find f l1 with
  | Some x => Some x
  | None => List.find f l2
  end.
Proof.
  induction l1 as [|x l1 IH]; simpl; [reflexivity|].
  destruct (f x); [reflexivity|exact IH].
Qed.

(** On the last part the loop returns at the first match. *)
Lemma scan_items_last (level : list ModelItem) (mc : Z) (part : string)
    (todo : list ModelItem) (next_item : option ModelItem) :
  scan_items level mc part true todo next_item =
  match List.find (matches mc part) todo with
  | Some item_ => inl (row_of level item_)
  | None => inr next_item
  end.
Proof.
  induction todo as [|item_ rest IH]; simpl; [reflexivity|].
  destruct (matches mc part item_); [reflexivity|exact IH].
Qed.

(** On any other part the loop runs to its end, and [next_item] is the
    last match. *)
Lemma scan_items_inner (level : list ModelItem) (mc : Z) (part : string)
    (todo : list ModelItem) (next_item : option ModelItem) :
  scan_items level mc part false todo next_item =
  inr (match last_match mc part todo with
       | Some item_ => Some item_
       | None => next_item
       end).
Proof.
  revert next_item. unfold last_match.
  induction todo as [|item_ rest IH]; intros next_item; simpl; [reflexivity|].
  rewrite find_app. simpl.
  destruct (matches mc part item_); rewrite IH;
    destruct (List.find (matches mc part) (List.rev rest)); reflexivity.
Qed.

Lemma named_path_loop_last (level : list ModelItem) (mc : Z) (part : string) :
  named_path_loop (Some level) mc [part]
  = row_of level <$> List.find (matches mc part) level.
Proof.
  simpl. rewrite scan_items_last.
  destruct (List.find (matches mc part) level); reflexivity.
Qed.

Lemma named_path_loop_inner (level : list ModelItem) (mc : Z) (part next_part : string)
    (rest : list string) :
  named_path_loop (Some level) mc (part :: next_part :: rest)
  = match last_match mc part level with
    | Some item_ => named_path_loop (Some (items item_)) mc (next_part :: rest)
    | None => None
    end.
Proof.
  cbn [named_path_loop]. rewrite scan_items_inner.
  destruct (last_match mc part level); reflexivity.
Qed.

(** With at most one match in a level, the first and the last match are
    that one. *)
Lemma one_match_find (mc : Z) (part : string) (level : list ModelItem) (it : ModelItem) :
  one_match mc part level -> In it level -> matches mc part it = true ->
  List.find (matches mc part) level = Some it.
Proof.
  unfold one_match. induction level as [|x rest IH]; simpl; [tauto|].
  intros Hone [->|Hin] Hm.
  - now rewrite Hm.
  - destruct (matches mc part x) eqn:Hx.
    + exfalso. simpl in Hone.
      assert (Hf : In it (List.filter (matches mc part) rest))
        by (apply filter_In; split; assumption).
      destruct (List.filter (matches mc part) rest); [destruct Hf|simpl in Hone; lia].
    + apply IH; assumption.
Qed.

Lemma one_match_last (mc : Z) (part : string) (level : list ModelItem) (it : ModelItem) :
  one_match mc part level -> In it level -> matches mc part it = true ->
  last_match mc part level = Some it.
Proof.
  intros Hone Hin Hm. unfold last_match. apply one_match_find.
  - unfold one_match in *. now rewrite filter_rev, length_rev.
  - apply in_rev. now rewrite rev_involutive.
  - exact Hm.
Qed.

Lemma find_no_match {A : Type} (f : A -> bool) (l : list A) :
  (forall x, In x l -> f x = false) -> List.find f l = None.
Proof.
  induction l as [|x rest IH]; simpl; [reflexivity|]. intros H.
  rewrite (H x) by (left; reflexivity). apply IH. intros y Hy. apply H. now right.
Qed.

Lemma last_match_some (mc : Z) (part : string) (level : list ModelItem) (it : ModelItem) :
  last_match mc part level = Some it -> it ∈ level /\ matches mc part it = true.
Proof.
  unfold last_match. intros H. apply find_some in H. destruct H as [Hin Hm].
  split; [apply list_elem_of_In, in_rev, Hin|exact Hm].
Qed.

Lemma last_match_none (mc : Z) (part : string) (level : list ModelItem) :
  last_match mc part level = None ->
  forall it, it ∈ level -> matches mc part it = false.
Proof.
  unfold last_match. intros H it Hin.
  apply (find_none _ _ H). apply in_rev. rewrite rev_involutive.
  apply list_elem_of_In, Hin.
Qed.

(** A returned row belongs to a path through matched items. *)
Lemma named_path_loop_Some (mc : Z) (parts : list string) :
  forall (level r : list ModelItem),
    named_path_loop (Some level) mc parts = Some r ->
    exists final it,
      resolves any_level mc level parts final it /\ r = row_of final it.
Proof.
  induction parts as [|part parts IH]; intros level r H; [discriminate|].
  destruct parts as [|next_part rest].
  - rewrite named_path_loop_last in H.
    destruct (List.find (matches mc part) level) as [it|] eqn:Hfind; [|discriminate].
    injection H as <-. apply find_some in Hfind. destruct Hfind as [Hin Hm].
    exists level, it. split; [|reflexivity].
    apply resolves_last; [apply list_elem_of_In, Hin|exact Hm|exact I].
  - rewrite named_path_loop_inner in H.
    destruct (last_match mc part level) as [it|] eqn:Hlast; [|discriminate].
    apply last_match_some in Hlast. destruct Hlast as [Hin Hm].
    destruct (IH _ _ H) as (final & found & Hres & ->).
    exists final, found. split; [|reflexivity].
    apply (resolves_step _ _ level part it); [exact Hin|exact Hm|exact I|discriminate|exact Hres].
Qed.

(** [None] is returned at a level without a match, reached through
    matched items. *)
Lemma named_path_loop_None (mc : Z) (parts : list string) :
  forall level : list ModelItem,
    parts <> [] ->
    named_path_loop (Some level) mc parts = None ->
    dead_end any_level mc level parts.
Proof.
  induction parts as [|part parts IH]; intros level Hne H; [congruence|].
  destruct parts as [|next_part rest].
  - rewrite named_path_loop_last in H.
    destruct (List.find (matches mc part) level) as [it|] eqn:Hfind; [discriminate|].
    apply dead_end_here. intros it Hin.
    apply (find_none _ _ Hfind), list_elem_of_In, Hin.
  - rewrite named_path_loop_inner in H.
    destruct (last_match mc part level) as [it|] eqn:Hlast.
    + apply last_match_some in Hlast. destruct Hlast as [Hin Hm].
      apply (dead_end_step _ _ level part it); [exact Hin|exact Hm|exact I|discriminate|].
      apply IH; [discriminate|exact H].
    + apply dead_end_here. exact (last_match_none _ _ _ Hlast).
Qed.

(** Along a path whose levels have one match each, the row of the item
    the path ends at is returned. *)
Lemma resolves_named_path_loop (mc : Z) (level : list ModelItem) (parts : list string)
    (final : list ModelItem) (found : ModelItem) :
  resolves (one_match mc) mc level parts final found ->
  named_path_loop (Some level) mc parts = Some (row_of final found).
Proof.
  induction 1 as [level part it Hin Hm Hone
                 |level part it parts final found Hin Hm Hone Hne Hres IH].
  - rewrite named_path_loop_last.
    rewrite (one_match_find mc part level it Hone) by
      (try apply list_elem_of_In; assumption).
    reflexivity.
  - destruct parts as [|next_part rest]; [congruence|].
    rewrite named_path_loop_inner.
    rewrite (one_match_last mc part level it Hone) by
      (try apply list_elem_of_In; assumption).
    exact IH.
Qed.

Lemma dead_end_named_path_loop (mc : Z) (level : list ModelItem) (parts : list string) :
  dead_end (one_match mc) mc level parts ->
  named_path_loop (Some level) mc parts = None.
Proof.
  induction 1 as [level part parts Hno
                 |level part it parts Hin Hm Hone Hne Hdead IH].
  - assert (Hfind : forall l, (forall x, In x l -> In x level) ->
                              List.find (matches mc part) l = None).
    { intros l Hl. apply find_no_match. intros x Hx.
      apply Hno, list_elem_of_In, Hl, Hx. }
    destruct parts as [|next_part rest].
    + rewrite named_path_loop_last, Hfind by auto. reflexivity.
    + rewrite named_path_loop_inner. unfold last_match.
      rewrite Hfind; [reflexivity|]. intros x Hx. apply in_rev, Hx.
  - destruct parts as [|next_part rest]; [congruence|].
    rewrite named_path_loop_inner.
    rewrite (one_match_last mc part level it Hone) by
      (try apply list_elem_of_In; assumption).
    exact IH.
Qed.

(** X7: what [row_by_named_path] guarantees on a non-empty list of parts.
    The call never raises.
    - A returned row is the row of a fully matched path: each part in
      turn matches an item of the current level (its column is
      [match_column], its value the part), the search goes on in the
      children of the matched item, and the row is made of the items of the
      last level that are on the row of the item matched last, in ascending
      order of their column.
    - [None] is returned at a level where no item matches the current
      part, reached through matched items: there is no other attempt.
    - Conversely, when the parts match one item at each level, the row of
      that path is what is returned, and when such a path reaches a level
      without a match, [None] is. *)
Theorem row_by_named_path_postcondition (self : ModelItems) (parts : list string)
    (mc : Z) (sep : string) :
  parts <> [] ->
  (exists o, row_by_named_path self (inl parts) mc sep = Ok o)
  /\ (forall r, row_by_named_path self (inl parts) mc sep = Ok (Some r) ->
        exists final it,
          resolves any_level mc (top_items self) parts final it
          /\ r = row_of final it)
  /\ (row_by_named_path self (inl parts) mc sep = Ok None ->
        dead_end any_level mc (top_items self) parts)
  /\ (forall final it,
        resolves (one_match mc) mc (top_items self) parts final it ->
        row_by_named_path self (inl parts) mc sep = Ok (Some (row_of final it)))
  /\ (dead_end (one_match mc) mc (top_items self) parts ->
        row_by_named_path self (inl parts) mc sep = Ok None)
  /\ (forall level item_,
        StronglySorted (key_le (fun it => column (fields it))) (row_of level item_)
        /\ row_of level item_
           ≡ₚ List.filter (fun it => (row (fields it) =? row (fields item_))%Z) level
        /\ forall it, In it (row_of level item_)
                      <-> In it level /\ row (fields it) = row (fields item_)).
Proof.
  intros Hne. unfold row_by_named_path.
  split; [eexists; reflexivity|].
  split; [|split; [|split; [|split]]].
  - intros r H. injection H as H. exact (named_path_loop_Some mc parts _ _ H).
  - intros H. injection H as H. exact (named_path_loop_None mc parts _ Hne H).
  - intros final it H. now rewrite (resolves_named_path_loop _ _ _ _ _ H).
  - intros H. now rewrite (dead_end_named_path_loop _ _ _ H).
  - exact row_of_spec.
Qed.

Lemma row_by_named_path_postcondition_witness :
  ["A"; "B"] <> ([] : list string)
  /\ row_by_named_path scenario_tree (inl ["A"; "B"]) 0 "/"
     = Ok (Some [leaf 0 0 "B"; leaf 0 1 "X"])
  /\ row_by_named_path scenario_tree (inl ["A"; "Z"]) 0 "/" = Ok None.
Proof.
  split; [discriminate|].
  pose (a := node 0 0 "A" [leaf 0 0 "B"; leaf 0 1 "X"]).
  assert (Ha : a ∈ top_items scenario_tree) by (apply list_elem_of_here).
  assert (H1 : one_match 0 "A" (top_items scenario_tree)) by (unfold one_match; simpl; lia).
  split.
  - destruct (row_by_named_path_postcondition scenario_tree ["A"; "B"] 0 "/")
      as (_ & _ & _ & Hfound & _); [discriminate|].
    apply (Hfound (items a) (leaf 0 0 "B")).
    apply (resolves_step _ _ _ "A" a); [exact Ha|reflexivity|exact H1|discriminate|].
    apply resolves_last; [apply list_elem_of_here|reflexivity|].
    unfold one_match; simpl; lia.
  - destruct (row_by_named_path_postcondition scenario_tree ["A"; "Z"] 0 "/")
      as (_ & _ & _ & _ & Hmissing & _); [discriminate|].
    apply Hmissing.
    apply (dead_end_step _ _ _ "A" a); [exact Ha|reflexivity|exact H1|discriminate|].
    apply dead_end_here. intros it Hin.
    apply list_elem_of_In in Hin. destruct Hin as [<-|[<-|[]]]; reflexivity.
Defined.

(** C2: the postcondition of [row_by_named_path] fails where a later
    sibling matches the same part.  In the tree below each part of the
    path A, B matches an item of the current level, going down into the
    children of the first ["A"], and the row of ["B"] is ["B"], ["X"]; the
    call descends into the last ["A"] instead and returns [None]. *)
Theorem row_by_named_path_misses_matched_path :
  resolves any_level 0 (top_items shadowed_tree) ["A"; "B"]
           [leaf 0 0 "B"; leaf 0 1 "X"] (leaf 0 0 "B")
  /\ row_of [leaf 0 0 "B"; leaf 0 1 "X"] (leaf 0 0 "B") = [leaf 0 0 "B"; leaf 0 1 "X"]
  /\ last_match 0 "A" (top_items shadowed_tree) = Some (node 1 0 "A" [leaf 0 0 "C"])
  /\ row_by_named_path shadowed_tree (inl ["A"; "B"]) 0 "/" = Ok None.
Proof.
  split; [|repeat split].
  apply (resolves_step _ _ _ "A" (node 0 0 "A" [leaf 0 0 "B"; leaf 0 1 "X"]));
    [apply list_elem_of_here|reflexivity|exact I|discriminate|].
  apply resolves_last; [apply list_elem_of_here|reflexivity|exact I].
Qed.

(** A path given as one string is split on the separator first. *)
Example row_by_named_path_string :
  str_split "a//b/" "/" = Ok ["a"; ""; "b"; ""]
  /\ str_split "abc" "/" = Ok ["abc"]
  /\ row_by_named_path scenario_tree (inr "A/B") 0 "/"
     = row_by_named_path scenario_tree (inl ["A"; "B"]) 0 "/".
Proof. repeat split. Qed.

(** C5: which of several matching siblings is used.  On the last part
    the first match in iteration order gives the row; on every other part
    the loop runs on after a match and the search goes down into the last
    matching sibling.  With two top-level items ["A"] of which only the
    first has a child ["B"], the path A, B is not found, where a search
    that takes the first match at every level finds the row of ["B"]. *)
Theorem named_path_descends_into_last_match :
  (forall (level : list ModelItem) (mc : Z) (part : string),
      named_path_loop (Some level) mc [part]
      = row_of level <$> List.find (matches mc part) level)
  /\ (forall (level : list ModelItem) (mc : Z) (part next_part : string) (rest : list string),
        named_path_loop (Some level) mc (part :: next_part :: rest)
        = match last_match mc part level with
          | Some item_ => named_path_loop (Some (items item_)) mc (next_part :: rest)
          | None => None
          end)
  /\ row_by_named_path twin_tree (inl ["A"; "B"]) 0 "/" = Ok None
  /\ first_match_loop (top_items twin_tree) 0 ["A"; "B"] = Some [leaf 0 0 "B"].
Proof.
  split; [exact named_path_loop_last|].
  split; [exact named_path_loop_inner|].
  split; reflexivity.
Qed.

(** * Further properties *)

(** ** Dispatch and registration *)



(** X2: registration and its effect on instantiation.  A class statement
    without [cpp_class], or with an empty one, leaves the registry as it
    is.  A non-empty name is bound to the new class, replacing what was
    registered under it, and no other name changes.  From then on every
    instantiation on a descriptor whose chain starts with that name gives
    an instance of the new class. *)
Theorem WidgetMetaClass_new_registers (registry : gmap string cls) (name : string)
    (c : cls) :
  name <> "" ->
  WidgetMetaClass_new None c registry = registry
  /\ WidgetMetaClass_new (Some "") c registry = registry
  /\ WidgetMetaClass_new (Some name) c registry !! name = Some c
  /\ (forall other, other <> name ->
        WidgetMetaClass_new (Some name) c registry !! other = registry !! other)
  /\ (forall earlier,
        WidgetMetaClass_new (Some name) c (WidgetMetaClass_new (Some name) earlier registry)
        = WidgetMetaClass_new (Some name) c registry)
  /\ (forall (requested : cls) (data : descriptor) (rest : list string) (fuel : nat),
        classes data = Some (name :: rest) ->
        (2 <= fuel)%nat ->
        WidgetMetaClass_call fuel (WidgetMetaClass_new (Some name) c registry) requested data
        = Some (Object_init c data)).
Proof.
  intros Hname.
  assert (Hnew : forall r k, WidgetMetaClass_new (Some name) k r = <[name := k]> r).
  { intros r k. unfold WidgetMetaClass_new.
    apply String.eqb_neq in Hname. now rewrite Hname. }
  split; [reflexivity|]. split; [reflexivity|].
  rewrite !Hnew. split; [apply lookup_insert_eq|].
  split; [intros other Hne; now apply lookup_insert_ne|].
  split; [intros earlier; rewrite !Hnew; apply insert_insert_eq|].
  intros requested data rest fuel Hchain Hfuel.
  destruct fuel as [|[|fuel]]; try lia. cbn [WidgetMetaClass_call].
  assert (Hf : first_registered (<[name := c]> registry) (default [] (classes data))
               = Some (name, c)).
  { rewrite Hchain. simpl. now rewrite lookup_insert_eq. }
  rewrite walk_chain_first_registered, Hf.
  destruct (decide (requested = c)) as [->|Hne]; [reflexivity|].
  rewrite walk_chain_first_registered, Hf.
  now rewrite decide_True by reflexivity.
Qed.

Lemma WidgetMetaClass_new_registers_witness :
  "QTableView" <> ""
  /\ WidgetMetaClass_call 2 (WidgetMetaClass_new (Some "QTableView") Widget cpp_classes)
       Object table_view_data
     = Some (Object_init Widget table_view_data).
Proof.
  split; [discriminate|].
  destruct (WidgetMetaClass_new_registers cpp_classes "QTableView" Widget)
    as (_ & _ & _ & _ & _ & Hcall); [discriminate|].
  apply (Hcall Object table_view_data ["QAbstractItemView"; "QWidget"] 2%nat);
    [reflexivity|lia].
Defined.

(** ** Construction of trees *)

Lemma data_preorder_item_eq {A : Type} (d : item_data A) :
  data_preorder_item d = data_fields d :: data_preorder (default [] (data_items d)).
Proof.
  destruct d as [f [ds|]]; simpl; [|reflexivity]. f_equal.
  induction ds as [|sub rest IH]; simpl; [reflexivity|]. now rewrite IH.
Qed.

Section item_data_induction.
Context {A : Type} (P : item_data A -> Prop) (Q : list (item_data A) -> Prop).
Hypothesis Hnil : Q [].
Hypothesis Hcons : forall d rest, P d -> Q rest -> Q (d :: rest).
Hypothesis Hleaf : forall f, P (mkItemData f None).
Hypothesis Hnode : forall f ds, Q ds -> P (mkItemData f (Some ds)).

Lemma item_data_forest_ind (ds : list (item_data A)) : Q ds.
Proof.
  assert (HP : forall d, P d).
  { fix IH 1. intros [f [l|]]; [|apply Hleaf]. apply Hnode.
    induction l as [|sub rest IHl]; [apply Hnil|].
    apply Hcons; [apply IH|exact IHl]. }
  induction ds as [|d rest IH]; [apply Hnil|]. apply Hcons; [apply HP|exact IH].
Qed.
End item_data_induction.

(** X3: building a tree keeps every descriptor, in order.  Iterating the
    collection built from a list of descriptors yields items whose
    attributes are the fields of the descriptors, parents before children
    and siblings in the order of the lists; there are as many nodes as
    descriptors; the top-level items are those of the top-level list; and
    an empty ['items'] list gives the same item as no ['items'] at all. *)
Theorem TreeItems_init_preserves {A : Type} (ds : list (item_data A)) :
  (exists t, TreeItems_init (mkItemsData (Some ds)) = Ok t
             /\ List.map fields (TreeItems_iter t) = data_preorder ds
             /\ node_count (top_items t) = length (data_preorder ds)
             /\ List.map fields (top_items t) = List.map data_fields ds)
  /\ forall f : A, TreeItem_init (mkItemData f (Some [])) = TreeItem_init (mkItemData f None).
Proof.
  split; [|reflexivity].
  exists (mkTreeItems (List.map TreeItem_init ds)). split; [reflexivity|].
  unfold TreeItems_iter. cbn [top_items].
  assert (Hpre : List.map fields (iter_items (List.map TreeItem_init ds)) = data_preorder ds).
  { pattern ds.
    apply (item_data_forest_ind
             (fun d => List.map fields (iter_item (TreeItem_init d)) = data_preorder_item d)).
    - reflexivity.
    - intros d rest Hd Hrest. simpl. now rewrite List.map_app, Hd, Hrest.
    - intros f. reflexivity.
    - intros f l Hl. rewrite iter_item_eq, data_preorder_item_eq. simpl.
      f_equal. exact Hl. }
  split; [exact Hpre|]. split.
  - rewrite <- iter_items_length, <- Hpre. now rewrite length_map.
  - rewrite List.map_map. apply map_ext. intros [f l]. reflexivity.
Qed.

(** ** Check states *)

(** X13: a checked item is checkable, and an item without a check state
    is neither; an item with any other state is checkable and not
    checked. *)
Theorem is_checked_is_checkable (item : ModelItem) :
  (ModelItem_is_checked item = true -> ModelItem_is_checkable item = true)
  /\ (check_state (fields item) = None ->
      ModelItem_is_checkable item = false /\ ModelItem_is_checked item = false)
  /\ (forall state, check_state (fields item) = Some state -> state <> "checked" ->
      ModelItem_is_checkable item = true /\ ModelItem_is_checked item = false).
Proof.
  unfold ModelItem_is_checked, ModelItem_is_checkable.
  split; [|split].
  - destruct (check_state (fields item)); [reflexivity|discriminate].
  - intros ->. split; reflexivity.
  - intros state -> Hne. split; [reflexivity|]. now apply String.eqb_neq.
Qed.

Lemma is_checked_is_checkable_witness :
  ModelItem_is_checked (mkTreeItem (mkModelFields 1 0 0 "a" (Some "checked") None) []) = true
  /\ ModelItem_is_checkable (mkTreeItem (mkModelFields 1 0 0 "a" (Some "checked") None) []) = true.
Proof.
  split; [reflexivity|].
  apply (is_checked_is_checkable
           (mkTreeItem (mkModelFields 1 0 0 "a" (Some "checked") None) [])).
  reflexivity.
Defined.

(** ** Reading and comparing properties *)

(** X4: [name in proxy] and [proxy[name]] agree.  From the same world
    both send the one property query and leave the same world; the
    membership test is true exactly when the item read returns a value,
    false exactly when it raises [KeyError] for the name, and what the
    channel raises comes out of both. *)
Theorem Properties_contains_getitem (obj : instance) (name : string) (w : world) :
  (Properties_contains obj name w).2 = (Properties_getitem obj name w).2
  /\ sent (Properties_contains obj name w).2
     = sent w ++ [object_properties (oid (attrs obj))]
  /\ match (Properties_contains obj name w).1 with
     | Ok true => exists v, (Properties_getitem obj name w).1 = Ok v
     | Ok false => (Properties_getitem obj name w).1 = Raise (KeyError name)
     | Raise e => (Properties_getitem obj name w).1 = Raise e
     end.
Proof.
  unfold Properties_contains, Properties_getitem.
  rewrite !bind_eq, Properties_call_eq.
  destruct (server w (now w) (sent w ++ [object_properties (oid (attrs obj))]))
    as [r|e]; [|repeat split].
  destruct (as_properties r) as [d|e]; [|repeat split].
  unfold lift, getitem, mret, M_ret. cbn [fst snd].
  destruct (d !! name) as [v|] eqn:Hd.
  - rewrite bool_decide_true by eauto. repeat split. eauto.
  - rewrite bool_decide_false by (intros [v Hv]; discriminate). repeat split.
Qed.

(** X5: what [check_props] answers.  Once the server has answered the
    query with a snapshot of the properties, the check is true exactly
    when every expected entry equals ([==]) the value of the snapshot
    under its key, an absent key counting as [None].  So an empty mapping
    of expectations is satisfied at once, and an absent key satisfies no
    expectation other than [None]. *)
Theorem check_props_spec (self : instance) (props snapshot : gmap string pyval)
    (w : world) :
  server w (now w) (sent w ++ [object_properties (oid (attrs self))])
    = Ok (RProperties snapshot) ->
  (exists b, check_props self props w
             = (Ok b, after_command (object_properties (oid (attrs self))) w)
             /\ (b = true <->
                 forall k v, props !! k = Some v ->
                             py_eq (default PNone (snapshot !! k)) v = true))
  /\ (check_props self ∅ w).1 = Ok true
  /\ (forall k v, props !! k = Some v -> snapshot !! k = None -> v <> PNone ->
        (check_props self props w).1 = Ok false).
Proof.
  intros Hreply.
  assert (Hiff : forall ps : gmap string pyval,
            forallb (fun kv => prop_satisfied snapshot kv.1 kv.2) (map_to_list ps) = true
            <-> forall k v, ps !! k = Some v ->
                            py_eq (default PNone (snapshot !! k)) v = true).
  { intros ps. rewrite forallb_forall. split.
    - intros H k v Hkv. specialize (H (k, v)).
      unfold prop_satisfied, py_ne in H. rewrite negb_involutive in H.
      apply H, list_elem_of_In, elem_of_map_to_list, Hkv.
    - intros H [k v] Hin. apply list_elem_of_In, elem_of_map_to_list in Hin.
      unfold prop_satisfied, py_ne. rewrite negb_involutive. exact (H k v Hin). }
  split; [|split].
  - eexists. rewrite check_props_eq, Hreply. cbn [as_properties].
    split; [reflexivity|]. apply Hiff.
  - rewrite check_props_eq, Hreply. cbn [as_properties fst].
    rewrite map_to_list_empty. reflexivity.
  - intros k v Hkv Hs Hv. rewrite check_props_eq, Hreply. cbn [as_properties fst].
    f_equal. apply not_true_is_false. intros Htrue.
    pose proof (proj1 (Hiff props) Htrue k v Hkv) as H.
    rewrite Hs in H. destruct v; try discriminate. congruence.
Qed.

Lemma check_props_spec_witness :
  server combo_world (now combo_world)
    (sent combo_world ++ [object_properties (oid (attrs combo))])
  = Ok (RProperties {[ "modelColumn" := PInt 0; "enabled" := PBool true;
                       "visible" := PBool true ]})
  /\ (check_props combo ∅ combo_world).1 = Ok true
  /\ (check_props combo {[ "text" := PStr "x" ]} combo_world).1 = Ok false.
Proof.
  split; [reflexivity|].
  destruct (check_props_spec combo {[ "text" := PStr "x" ]}
              {[ "modelColumn" := PInt 0; "enabled" := PBool true; "visible" := PBool true ]}
              combo_world eq_refl) as (_ & Hempty & Habsent).
  split; [exact Hempty|].
  apply (Habsent "text" (PStr "x")); [reflexivity|reflexivity|discriminate].
Defined.

(** ** Clicks with a legal button *)

Lemma send_unit_eq (cmd : command) (w : world) :
  (send_command cmd;; mret tt) w
  = (match server w (now w) (sent w ++ [cmd]) with
     | Ok _ => Ok tt
     | Raise e => Raise e
     end, after_command cmd w).
Proof.
  rewrite bind_eq, send_command_eq.
  destruct (server w (now w) (sent w ++ [cmd])); reflexivity.
Qed.

(** X6: the legal buttons and what a click sends for them.  A button is
    accepted exactly when it is left, right or middle, and the action is
    then click, rightclick or middleclick.  For an accepted button each
    click-style operation sends one command carrying that action, and no
    other: [GItem.click] for the item's view and id, [click_item] for the
    row, column and path of the item with the origin and offsets given,
    [Widget.click] without a wait for the widget; the outcome is that of
    the channel. *)
Theorem legal_button_clicks (btn action : string) :
  (mouse_action btn = Ok action <->
     (btn = "left" /\ action = "click")
     \/ (btn = "right" /\ action = "rightclick")
     \/ (btn = "middle" /\ action = "middleclick"))
  /\ (mouse_action btn = Ok action ->
      (forall (self : GItem) (w : world),
          let cmd := model_gitem_action (viewid (fields self)) action (gid (fields self)) in
          GItem_click self btn w
          = (match server w (now w) (sent w ++ [cmd]) with
             | Ok _ => Ok tt
             | Raise e => Raise e
             end, after_command cmd w))
      /\ (forall (self : instance) (item : ModelItem) (origin : string) (x y : Z) (w : world),
            let cmd := model_item_action (oid (attrs self)) action
                         (row (fields item)) (column (fields item))
                         (Some origin) (Some x) (Some y) (itempath (fields item)) in
            AbstractItemView_click_item self item origin x y btn w
            = (match server w (now w) (sent w ++ [cmd]) with
               | Ok _ => Ok tt
               | Raise e => Raise e
               end, after_command cmd w))
      /\ (forall (self : instance) (wait_for_enabled : Z) (w : world),
            (wait_for_enabled <= 0)%Z ->
            let cmd := widget_click (oid (attrs self)) action in
            Widget_click self wait_for_enabled btn w
            = (match server w (now w) (sent w ++ [cmd]) with
               | Ok _ => Ok tt
               | Raise e => Raise e
               end, after_command cmd w))).
Proof.
  split.
  - unfold mouse_action.
    destruct (String.eqb btn "left") eqn:Hl;
      [apply String.eqb_eq in Hl|apply String.eqb_neq in Hl].
    { subst btn. split.
      - intros H. injection H as <-. auto.
      - intros [[_ ->]|[[H _]|[H _]]]; [reflexivity|discriminate H|discriminate H]. }
    destruct (String.eqb btn "right") eqn:Hr;
      [apply String.eqb_eq in Hr|apply String.eqb_neq in Hr].
    { subst btn. split.
      - intros H. injection H as <-. auto.
      - intros [[H _]|[[_ ->]|[H _]]]; [discriminate H|reflexivity|discriminate H]. }
    destruct (String.eqb btn "middle") eqn:Hm;
      [apply String.eqb_eq in Hm|apply String.eqb_neq in Hm].
    { subst btn. split.
      - intros H. injection H as <-. auto.
      - intros [[H _]|[[H _]|[_ ->]]]; [discriminate H|discriminate H|reflexivity]. }
    split; [discriminate|]. intros [[H _]|[[H _]|[H _]]]; congruence.
  - intros Hbtn. split; [|split].
    + intros self w cmd. unfold GItem_click, GItem_action.
      rewrite bind_eq. unfold lift at 1. rewrite Hbtn. apply send_unit_eq.
    + intros self item origin x y w cmd.
      unfold AbstractItemView_click_item, AbstractItemView_item_action.
      rewrite bind_eq. unfold lift at 1. rewrite Hbtn. apply send_unit_eq.
    + intros self wait w Hwait cmd. unfold Widget_click.
      apply Z.ltb_ge in Hwait. rewrite Hwait.
      rewrite bind_eq. unfold mret at 1, M_ret at 1.
      rewrite bind_eq. unfold lift at 1. rewrite Hbtn. apply send_unit_eq.
Qed.

Lemma legal_button_clicks_witness :
  mouse_action "right" = Ok "rightclick"
  /\ GItem_click some_gitem "right" combo_world
     = (Ok tt, after_command (model_gitem_action 3 "rightclick" 11) combo_world).
Proof.
  split; [reflexivity|].
  destruct (legal_button_clicks "right" "rightclick") as [_ Hsend].
  destruct (Hsend eq_refl) as (Hgitem & _).
  exact (Hgitem some_gitem combo_world).
Defined.

(** ** The combobox, whatever the server answers *)

Lemma WidgetMetaClass_call_attrs (fuel : nat) (registry : gmap string cls) (c : cls)
    (data : descriptor) (inst : instance) :
  WidgetMetaClass_call fuel registry c data = Some inst ->
  attrs inst = attrs (Object_init c data).
Proof.
  revert c. induction fuel as [|fuel IH]; intros c H; [discriminate|].
  cbn [WidgetMetaClass_call] in H.
  destruct (walk_chain registry c (default [] (classes data))) as [registered|].
  - rewrite (IH registered H). reflexivity.
  - injection H as <-. reflexivity.
Qed.

(** Closes a case in which the call has raised after reads only. *)
Ltac raised_after_reads :=
  let H := fresh in
  intros H; injection H as <- <-;
  left; eexists; split;
  [ cbn [snd after_command sent]; rewrite <- ?app_assoc; reflexivity
  | split; [ cbn [app];
             repeat (constructor; [unfold combo_read; eauto|]); constructor
           | eexists; reflexivity ] ].

(** X11: what [set_current_text] can send, whatever the server answers.
    Either the call raises, and then it has sent nothing but reads: the
    property query, the model query, an items query.  Or it has written,
    and then the server had answered the three reads with properties that
    have a ['modelColumn'], a model and its items, some item of that
    model matches, and the write is one command, the last, setting
    ['currentIndex'] alone to the row of the first matching item in
    iteration order, whose value is the text and whose row is not
    negative. *)
Theorem set_current_text_sends (self : instance) (text : string) (w : world) :
  let q1 := object_properties (oid (attrs self)) in
  let q2 := model (oid (attrs self)) in
  (exists l,
      sent (ComboBox_set_current_text self text w).2 = sent w ++ l
      /\ Forall (combo_read self) l
      /\ exists e, (ComboBox_set_current_text self text w).1 = Raise e)
  \/ (exists (properties : gmap string pyval) (model_column : pyval)
             (model_data : descriptor) (ds : list (item_data ModelFields))
             (item : ModelItem),
        let q3 := model_items (oid model_data) in
        server w (now w) (sent w ++ [q1]) = Ok (RProperties properties)
        /\ properties !! "modelColumn" = Some model_column
        /\ server w (now w) (sent w ++ [q1; q2]) = Ok (RObject model_data)
        /\ server w (now w) (sent w ++ [q1; q2; q3])
           = Ok (RModelItems (mkItemsData (Some ds)))
        /\ List.find (combo_test model_column text) (iter_items (List.map TreeItem_init ds))
           = Some item
        /\ value (fields item) = text
        /\ py_eq model_column (PInt (column (fields item))) = true
        /\ (0 <= row (fields item))%Z
        /\ sent (ComboBox_set_current_text self text w).2
           = sent w ++ [q1; q2; q3; combo_write self (row (fields item))]).
Proof.
  cbv zeta.
  destruct (ComboBox_set_current_text self text w) as [res w'] eqn:Hrun.
  cbn [fst snd]. revert Hrun. unfold ComboBox_set_current_text.
  set (q1 := object_properties (oid (attrs self))).
  set (q2 := model (oid (attrs self))).
  rewrite bind_eq, Properties_call_eq. fold q1.
  destruct (server w (now w) (sent w ++ [q1])) as [r1|e1] eqn:H1; [|raised_after_reads].
  destruct r1 as [|properties|d1|d1]; cbn [as_properties]; try raised_after_reads.
  rewrite bind_eq. unfold lift at 1, getitem.
  destruct (properties !! "modelColumn") as [model_column|] eqn:Hcol;
    [|raised_after_reads].
  rewrite bind_eq. unfold ComboBox_model. rewrite bind_eq, send_command_eq. fold q2.
  cbn [after_command sent server now]. rewrite <- app_assoc. cbn [app].
  destruct (server w (now w) (sent w ++ [q1; q2])) as [r2|e2] eqn:H2;
    [|raised_after_reads].
  rewrite bind_eq. unfold lift at 1.
  destruct r2 as [|d2|model_data|d2]; cbn [as_object]; try raised_after_reads.
  unfold lift at 1.
  destruct (new_instance AbstractItemModel model_data) as [m|e] eqn:Hm;
    [|raised_after_reads].
  assert (Hoid : oid (attrs m) = oid model_data).
  { unfold new_instance in Hm.
    destruct (WidgetMetaClass_call 1000 cpp_classes AbstractItemModel model_data)
      as [inst|] eqn:Hcall; [|discriminate].
    injection Hm as <-. now rewrite (WidgetMetaClass_call_attrs _ _ _ _ _ Hcall). }
  rewrite bind_eq. unfold call_items.
  destruct (decide (class_of m = AbstractItemModel)) as [Hclass|Hclass];
    [|raised_after_reads].
  unfold AbstractItemModel_items. rewrite bind_eq, send_command_eq, Hoid.
  set (q3 := model_items (oid model_data)).
  cbn [after_command sent server now]. rewrite <- !app_assoc. cbn [app].
  destruct (server w (now w) (sent w ++ [q1; q2; q3])) as [r3|e3] eqn:H3;
    [|raised_after_reads].
  rewrite bind_eq. unfold lift at 1.
  destruct r3 as [|d3|d3|[reply]]; cbn [as_model_items]; try raised_after_reads.
  unfold lift at 1, TreeItems_init. cbn [reply_items].
  destruct reply as [ds|]; [|raised_after_reads].
  unfold TreeItems_iter. cbn [top_items]. cbv zeta.
  change (fun item : ModelItem =>
            py_eq model_column (PInt (column (fields item)))
            && String.eqb (value (fields item)) text)
    with (combo_test model_column text).
  destruct (List.find (combo_test model_column text) (iter_items (List.map TreeItem_init ds)))
    as [item|] eqn:Hfind; [|raised_after_reads].
  destruct (-1 <? row (fields item))%Z eqn:Hrow; [|raised_after_reads].
  unfold Object_set_property. rewrite Object_set_properties_eq by reflexivity.
  intros Hrun. injection Hrun as <- <-.
  right. exists properties, model_column, model_data, ds, item. cbv zeta. fold q3.
  apply find_some in Hfind as Hitem. destruct Hitem as [_ Htest].
  unfold combo_test in Htest. apply andb_true_iff in Htest as [Hc Hv].
  apply String.eqb_eq in Hv. apply Z.ltb_lt in Hrow.
  repeat (split; [first [assumption | reflexivity | lia]|]).
  cbn [after_command sent]. rewrite <- !app_assoc. reflexivity.
Qed.

(** X12: how [set_current_text] fails before it looks at the model.
    What the channel raises on the property query comes out as it is, and
    properties without a ['modelColumn'] raise [KeyError] for that key; in
    both cases the property query is the only command sent. *)
Theorem set_current_text_early_errors (self : instance) (text : string) (w : world) :
  let query := object_properties (oid (attrs self)) in
  (forall e, server w (now w) (sent w ++ [query]) = Raise e ->
     ComboBox_set_current_text self text w = (Raise e, after_command query w))
  /\ (forall properties,
        server w (now w) (sent w ++ [query]) = Ok (RProperties properties) ->
        properties !! "modelColumn" = None ->
        ComboBox_set_current_text self text w
        = (Raise (KeyError "modelColumn"), after_command query w)).
Proof.
  cbv zeta. split.
  - intros e He. unfold ComboBox_set_current_text.
    rewrite bind_eq, Properties_call_eq, He. reflexivity.
  - intros properties Hreply Hcol. unfold ComboBox_set_current_text.
    rewrite bind_eq, Properties_call_eq, Hreply. cbn [as_properties].
    rewrite bind_eq. unfold lift at 1, getitem. rewrite Hcol. reflexivity.
Qed.

Lemma set_current_text_early_errors_witness :
  server bare_world (now bare_world)
    (sent bare_world ++ [object_properties (oid (attrs combo))])
  = Ok (RProperties {[ "enabled" := PBool true ]})
  /\ ComboBox_set_current_text combo "Blue" bare_world
     = (Raise (KeyError "modelColumn"), after_command (object_properties 7) bare_world).
Proof.
  split; [reflexivity|].
  destruct (set_current_text_early_errors combo "Blue" bare_world) as [_ Hmissing].
  apply (Hmissing {[ "enabled" := PBool true ]}); reflexivity.
Defined.

(** ** Named paths: rows, items and string paths *)

Lemma resolves_found (ok : string -> list ModelItem -> Prop) (mc : Z)
    (level : list ModelItem) (parts : list string) (final : list ModelItem)
    (it : ModelItem) :
  resolves ok mc level parts final it ->
  it ∈ final /\ exists part, last parts = Some part /\ matches mc part it = true.
Proof.
  induction 1 as [level part it Hin Hm _
                 |level part it parts final found _ _ _ Hne _ IH].
  - split; [exact Hin|]. exists part. split; [reflexivity|exact Hm].
  - destruct IH as (Hin & part' & Hlast & Hm). split; [exact Hin|].
    exists part'. split; [|exact Hm].
    destruct parts as [|p ps]; [congruence|exact Hlast].
Qed.

(** A returned row has the matched item in it. *)
Lemma named_path_loop_row (mc : Z) (parts : list string) (level r : list ModelItem) :
  named_path_loop (Some level) mc parts = Some r ->
  exists it part,
    In it r /\ last parts = Some part /\ matches mc part it = true
    /\ forall x, In x r -> row (fields x) = row (fields it).
Proof.
  intros H. destruct (named_path_loop_Some mc parts level r H) as (final & it & Hres & ->).
  destruct (resolves_found _ _ _ _ _ _ Hres) as (Hin & part & Hlast & Hm).
  destruct (row_of_spec final it) as (_ & _ & Hrow).
  exists it, part. split; [|split; [exact Hlast|split; [exact Hm|]]].
  - apply Hrow. split; [apply list_elem_of_In, Hin|reflexivity].
  - intros x Hx. apply Hrow in Hx. tauto.
Qed.

Lemma row_by_named_path_row (self : ModelItems) (named_path : list string + string)
    (mc : Z) (sep : string) (r : list ModelItem) :
  row_by_named_path self named_path mc sep = Ok (Some r) ->
  exists it, In it r /\ forall x, In x r -> row (fields x) = row (fields it).
Proof.
  unfold row_by_named_path. intros H.
  destruct (match named_path with inl l => Ok l | inr s => str_split s sep end)
    as [parts|e]; [|discriminate].
  injection H as H. destruct (named_path_loop_row _ _ _ _ H) as (it & _ & Hin & _ & _ & Hrow).
  exists it. split; assumption.
Qed.

Lemma list_getitem_spec {A : Type} (l : list A) (i : Z) :
  let n := Z.of_nat (length l) in
  ((0 <= i < n)%Z -> list_getitem l i = l !! Z.to_nat i /\ is_Some (l !! Z.to_nat i))
  /\ ((- n <= i < 0)%Z ->
      list_getitem l i = l !! Z.to_nat (n + i) /\ is_Some (l !! Z.to_nat (n + i)))
  /\ ((n <= i)%Z \/ (i < - n)%Z -> list_getitem l i = None).
Proof.
  cbv zeta. unfold list_getitem. split; [|split].
  - intros Hi. destruct (i <? 0)%Z eqn:Hneg; [apply Z.ltb_lt in Hneg; lia|].
    assert (H0 : (0 <=? i)%Z = true) by (apply Z.leb_le; lia).
    assert (H1 : (i <? Z.of_nat (length l))%Z = true) by (apply Z.ltb_lt; lia).
    rewrite H0, H1. split; [reflexivity|]. apply lookup_lt_is_Some. lia.
  - intros Hi. destruct (i <? 0)%Z eqn:Hneg; [|apply Z.ltb_ge in Hneg; lia].
    assert (H0 : (0 <=? i + Z.of_nat (length l))%Z = true) by (apply Z.leb_le; lia).
    assert (H1 : (i + Z.of_nat (length l) <? Z.of_nat (length l))%Z = true)
      by (apply Z.ltb_lt; lia).
    rewrite H0, H1, (Z.add_comm (Z.of_nat (length l)) i).
    split; [reflexivity|]. apply lookup_lt_is_Some. lia.
  - intros Hi. destruct (i <? 0)%Z eqn:Hneg.
    + apply Z.ltb_lt in Hneg.
      destruct (0 <=? i + Z.of_nat (length l))%Z eqn:H0; [|reflexivity].
      apply Z.leb_le in H0. lia.
    + apply Z.ltb_ge in Hneg.
      destruct (i <? Z.of_nat (length l))%Z eqn:H1;
        [apply Z.ltb_lt in H1; lia|]. now rewrite andb_false_r.
Qed.

(** X8: [item_by_named_path].  A path that is not found gives [None].
    A found row is never empty, so its subscript decides the outcome:
    position [column] of the row sorted on the columns, counted from the
    end when negative, and [IndexError] outside the row.  The position is
    the column number itself when the row has the columns 0, 1, 2, ...
    without a gap. *)
Theorem item_by_named_path_spec (self : ModelItems) (named_path : list string + string)
    (mc : Z) (sep : string) (col : Z) :
  (row_by_named_path self named_path mc sep = Ok None ->
     item_by_named_path self named_path mc sep col = Got None)
  /\ (forall e, row_by_named_path self named_path mc sep = Raise e ->
        item_by_named_path self named_path mc sep col = Failed e)
  /\ (forall r, row_by_named_path self named_path mc sep = Ok (Some r) ->
        let n := Z.of_nat (length r) in
        r <> []
        /\ ((0 <= col < n)%Z ->
            exists item, r !! Z.to_nat col = Some item
                         /\ item_by_named_path self named_path mc sep col = Got (Some item))
        /\ ((- n <= col < 0)%Z ->
            exists item, r !! Z.to_nat (n + col) = Some item
                         /\ item_by_named_path self named_path mc sep col = Got (Some item))
        /\ ((n <= col)%Z \/ (col < - n)%Z ->
            item_by_named_path self named_path mc sep col = IndexError)
        /\ (List.map (fun it => column (fields it)) r
              = List.map Z.of_nat (seq 0 (length r)) ->
            (0 <= col < n)%Z ->
            exists item, item_by_named_path self named_path mc sep col = Got (Some item)
                         /\ column (fields item) = col)).
Proof.
  unfold item_by_named_path. split; [intros ->; reflexivity|].
  split; [intros e ->; reflexivity|].
  intros r Hr. cbv zeta. rewrite Hr.
  destruct (row_by_named_path_row _ _ _ _ _ Hr) as (it & Hin & _).
  destruct r as [|x r]; [destruct Hin|]. clear Hin it.
  destruct (list_getitem_spec (x :: r) col) as (Hpos & Hneg & Hout). cbv zeta in *.
  split; [discriminate|].
  assert (Hlook : (0 <= col < Z.of_nat (length (x :: r)))%Z ->
            exists item, (x :: r) !! Z.to_nat col = Some item
              /\ match list_getitem (x :: r) col with
                 | Some item0 => Got (Some item0)
                 | None => IndexError
                 end = Got (Some item)).
  { intros Hc. destruct (Hpos Hc) as [-> [item Hitem]].
    exists item. rewrite Hitem. split; reflexivity. }
  split; [exact Hlook|]. split; [|split].
  - intros Hc. destruct (Hneg Hc) as [-> [item Hitem]].
    exists item. rewrite Hitem. split; reflexivity.
  - intros Hc. now rewrite (Hout Hc).
  - intros Hdense Hc. destruct (Hlook Hc) as (item & Hitem & ->).
    exists item. split; [reflexivity|].
    assert (Hmap : List.map (fun it => column (fields it)) (x :: r) !! Z.to_nat col
                   = Some (column (fields item))).
    { change (List.map ?f ?l) with (f <$> l). rewrite list_lookup_fmap, Hitem. reflexivity. }
    rewrite Hdense in Hmap.
    change (List.map ?f ?l) with (f <$> l) in Hmap.
    rewrite list_lookup_fmap in Hmap.
    destruct (seq 0 (length (x :: r)) !! Z.to_nat col) as [k|] eqn:Hk; [|discriminate].
    apply lookup_seq in Hk. destruct Hk as [-> _].
    injection Hmap as <-. lia.
Qed.

Lemma item_by_named_path_spec_witness :
  row_by_named_path scenario_tree (inl ["A"; "B"]) 0 "/"
    = Ok (Some [leaf 0 0 "B"; leaf 0 1 "X"])
  /\ (0 <= 1 < 2)%Z
  /\ item_by_named_path scenario_tree (inl ["A"; "B"]) 0 "/" 1 = Got (Some (leaf 0 1 "X"))
  /\ item_by_named_path scenario_tree (inl ["A"; "B"]) 0 "/" 2 = IndexError.
Proof.
  split; [reflexivity|]. split; [lia|].
  destruct (item_by_named_path_spec scenario_tree (inl ["A"; "B"]) 0 "/" 1)
    as (_ & _ & H1).
  destruct (item_by_named_path_spec scenario_tree (inl ["A"; "B"]) 0 "/" 2)
    as (_ & _ & H2).
  destruct (H1 _ eq_refl) as (_ & Hpos & _).
  destruct (H2 _ eq_refl) as (_ & _ & _ & Hout & _).
  split.
  - destruct Hpos as (item & Hitem & ->); [simpl; lia|].
    injection Hitem as <-. reflexivity.
  - apply Hout. left. simpl. lia.
Defined.

Lemma rev_app_acc (s acc : string) : String.rev_app s acc = String.rev_app s "" +:+ acc.
Proof.
  revert acc. induction s as [|a s IH]; intros acc; [reflexivity|].
  cbn [String.rev_app]. rewrite (IH (String a acc)), (IH (String a "")).
  now rewrite string_app_assoc.
Qed.

Lemma rev_push (a : Ascii.ascii) (cur p : string) :
  String.rev (String a cur) +:+ p = String.rev cur +:+ String a p.
Proof.
  unfold String.rev. cbn [String.rev_app]. rewrite rev_app_acc.
  now rewrite string_app_assoc.
Qed.

Lemma string_app_empty_r (s : string) : s +:+ "" = s.
Proof.
  induction s as [|a s IH]; [reflexivity|].
  change (String a (s +:+ "") = String a s). now rewrite IH.
Qed.

Lemma prefix_char (c a : Ascii.ascii) (s : string) :
  String.prefix (String c "") (String a s) = if Ascii.ascii_dec c a then true else false.
Proof.
  cbn [String.prefix]. destruct (Ascii.ascii_dec c a); [|reflexivity].
  destruct s; reflexivity.
Qed.

(** Splitting on one character, over a piece without that character. *)
Lemma split_from_piece (c : Ascii.ascii) (p cur : string) :
  without_char c p ->
  split_from (String c "") p O cur = [String.rev cur +:+ p]
  /\ forall rest,
       split_from (String c "") (p +:+ String c rest) O cur
       = (String.rev cur +:+ p) :: split_from (String c "") rest O "".
Proof.
  revert cur. induction p as [|a p IH]; intros cur Hp.
  - split; [cbn [split_from]; now rewrite string_app_empty_r|].
    intros rest. change ("" +:+ String c rest) with (String c rest).
    cbn [split_from]. rewrite prefix_char.
    destruct (Ascii.ascii_dec c c); [|congruence].
    now rewrite string_app_empty_r.
  - destruct Hp as [Hac Hp]. destruct (IH (String a cur) Hp) as [IH1 IH2].
    split.
    + cbn [split_from]. rewrite prefix_char.
      destruct (Ascii.ascii_dec c a); [congruence|].
      rewrite IH1. now rewrite rev_push.
    + intros rest. change (String a p +:+ String c rest) with (String a (p +:+ String c rest)).
      cbn [split_from]. rewrite prefix_char.
      destruct (Ascii.ascii_dec c a); [congruence|].
      rewrite IH2. now rewrite rev_push.
Qed.

Lemma split_join_char (c : Ascii.ascii) (parts : list string) :
  parts <> [] -> Forall (without_char c) parts ->
  split_from (String c "") (str_join (String c "") parts) O "" = parts.
Proof.
  induction parts as [|p rest IH]; intros Hne Hall; [congruence|].
  apply Forall_cons in Hall as [Hp Hrest].
  destruct (split_from_piece c p "" Hp) as [H1 H2].
  destruct rest as [|q rest].
  - cbn [str_join]. exact H1.
  - change (str_join (String c "") (p :: q :: rest))
      with (p +:+ String c (str_join (String c "") (q :: rest))).
    rewrite H2. f_equal. apply IH; [discriminate|exact Hrest].
Qed.

(** X9: a path as one string.  With a separator of one character and
    parts that do not have that character in them, the path given as the
    parts joined by the separator is split into these parts again, and the
    call returns what it returns for the list of the parts. *)
Theorem row_by_named_path_joined (self : ModelItems) (parts : list string)
    (c : Ascii.ascii) (mc : Z) :
  parts <> [] ->
  Forall (without_char c) parts ->
  str_split (str_join (String c "") parts) (String c "") = Ok parts
  /\ row_by_named_path self (inr (str_join (String c "") parts)) mc (String c "")
     = row_by_named_path self (inl parts) mc (String c "").
Proof.
  intros Hne Hall.
  assert (Hsplit : str_split (str_join (String c "") parts) (String c "") = Ok parts).
  { unfold str_split. cbn [String.eqb]. now rewrite split_join_char. }
  split; [exact Hsplit|]. unfold row_by_named_path. now rewrite Hsplit.
Qed.

Lemma row_by_named_path_joined_witness :
  ["A"; "B"] <> ([] : list string)
  /\ Forall (without_char "/"%char) ["A"; "B"]
  /\ row_by_named_path scenario_tree (inr "A/B") 0 "/"
     = row_by_named_path scenario_tree (inl ["A"; "B"]) 0 "/".
Proof.
  assert (Hall : Forall (without_char "/"%char) ["A"; "B"]).
  { repeat constructor; discriminate. }
  split; [discriminate|]. split; [exact Hall|].
  apply (row_by_named_path_joined scenario_tree ["A"; "B"] "/"%char 0);
    [discriminate|exact Hall].
Defined.

Lemma named_path_loop_no_cursor (mc : Z) (parts : list string) :
  named_path_loop None mc parts = None.
Proof. destruct parts; reflexivity. Qed.

(** X10: the edges of [row_by_named_path].  An empty list of parts is
    not found, and nothing is found in an empty collection.  The separator
    plays no part when the path is a list; with a string path an empty
    separator raises [ValueError], and the empty string is the path of one
    empty part: the call looks for a top-level item whose value is
    empty. *)
Theorem row_by_named_path_edges (self : ModelItems) (mc : Z) (sep : string) :
  sep <> "" ->
  row_by_named_path self (inl []) mc sep = Ok None
  /\ (forall parts, row_by_named_path (mkTreeItems []) (inl parts) mc sep = Ok None)
  /\ (forall parts sep',
        row_by_named_path self (inl parts) mc sep'
        = row_by_named_path self (inl parts) mc sep)
  /\ (forall s, row_by_named_path self (inr s) mc "" = Raise (ValueError "empty separator"))
  /\ row_by_named_path self (inr "") mc sep = row_by_named_path self (inl [""]) mc sep
  /\ item_by_named_path self (inl []) mc sep 0 = Got None.
Proof.
  intros Hsep. split; [reflexivity|]. split; [|split; [reflexivity|split; [reflexivity|]]].
  - intros [|part parts]; [reflexivity|]. unfold row_by_named_path.
    cbn [named_path_loop top_items scan_items]. cbn [fmap option_fmap option_map].
    now rewrite named_path_loop_no_cursor.
  - split; [|reflexivity]. unfold row_by_named_path, str_split.
    apply String.eqb_neq in Hsep. now rewrite Hsep.
Qed.

Lemma row_by_named_path_edges_witness :
  "/" <> ""
  /\ row_by_named_path scenario_tree (inr "") 0 "/" = Ok None.
Proof.
  split; [discriminate|].
  destruct (row_by_named_path_edges scenario_tree 0 "/") as (_ & _ & _ & _ & Hempty & _);
    [discriminate|].
  rewrite Hempty. reflexivity.
Defined.

(** X15: without duplicates the code is the first-match search.  When,
    going down through the first matches, every level but the last has at
    most one item that matches its part, the call returns what the search
    that takes the first match at every level returns, found or not. *)
Theorem row_by_named_path_first_match (self : ModelItems) (parts : list string)
    (mc : Z) (sep : string) :
  unambiguous (top_items self) mc parts ->
  row_by_named_path self (inl parts) mc sep
  = Ok (first_match_loop (top_items self) mc parts).
Proof.
  unfold row_by_named_path. intros H. f_equal.
  generalize dependent (top_items self). clear self.
  induction parts as [|part parts IH]; intros level H; [reflexivity|].
  destruct parts as [|next_part rest].
  - rewrite named_path_loop_last. cbn [first_match_loop].
    destruct (List.find (matches mc part) level); reflexivity.
  - rewrite named_path_loop_inner.
    cbn [unambiguous] in H. destruct H as [Hone Hdown].
    cbn [first_match_loop].
    destruct (List.find (matches mc part) level) as [it|] eqn:Hfind.
    + apply find_some in Hfind as Hit. destruct Hit as [Hin Hm].
      rewrite (one_match_last mc part level it Hone Hin Hm).
      apply IH, Hdown.
    + unfold last_match. rewrite find_no_match; [reflexivity|].
      intros x Hx. apply (find_none _ _ Hfind). apply in_rev, Hx.
Qed.

Lemma row_by_named_path_first_match_witness :
  unambiguous (top_items scenario_tree) 0 ["A"; "B"]
  /\ row_by_named_path scenario_tree (inl ["A"; "B"]) 0 "/"
     = Ok (Some [leaf 0 0 "B"; leaf 0 1 "X"]).
Proof.
  assert (H : unambiguous (top_items scenario_tree) 0 ["A"; "B"]).
  { simpl. split; [unfold one_match; simpl; lia|exact I]. }
  split; [exact H|].
  exact (row_by_named_path_first_match scenario_tree ["A"; "B"] 0 "/" H).
Defined.

(** ** The build helper *)

Section copy_lib_facts.
Context {FS : Type}.
Context (glob_glob : string -> FS -> list string).
Context (shutil_copy : string -> string -> FS -> option string * FS).

(** X14: [copy_file] copies one file at most.  When the pattern matches
    nothing it prints one warning, touches nothing and returns false.
    Otherwise it prints one line for every match, in order, and then calls
    [shutil.copy] once, for the last match only: the file system after the
    call is the one that copy leaves, and the result is true exactly when
    the copy raised nothing; the message of an exception is printed after
    the other lines. *)
Theorem copy_file_copies_last (source_path destination_path : string) (fs : FS) :
  let matched := glob_glob source_path fs in
  let announced :=
    List.map (fun file => "Copy " +:+ file +:+ " -> " +:+ destination_path) matched in
  (matched = [] ->
     copy_file glob_glob shutil_copy source_path destination_path fs
     = (false, fs, ["warning: file(s) '" +:+ source_path +:+ "' not found"]))
  /\ (forall earlier file,
        matched = earlier ++ [file] ->
        let outcome := shutil_copy file destination_path fs in
        copy_file glob_glob shutil_copy source_path destination_path fs
        = (bool_decide (outcome.1 = None), outcome.2,
           announced ++ match outcome.1 with Some error => [error] | None => [] end)).
Proof.
  cbv zeta. unfold copy_file. split.
  - intros ->. reflexivity.
  - intros earlier file Hm. rewrite Hm.
    rewrite length_app, Nat.add_comm. cbn [length Nat.add Nat.eqb].
    rewrite last_snoc.
    destruct (shutil_copy file destination_path fs) as [[error|] fs']; cbn [fst snd].
    + rewrite bool_decide_false by discriminate. reflexivity.
    + rewrite bool_decide_true by reflexivity. now rewrite app_nil_r.
Qed.
End copy_lib_facts.

Lemma copy_file_copies_last_witness :
  two_libraries "build/*.so" [] = ["build/a.so"] ++ ["build/b.so"]
  /\ copy_file two_libraries recording_copy "build/*.so" "run" []
     = (true, [("build/b.so", "run")],
        ["Copy build/a.so -> run"; "Copy build/b.so -> run"]).
Proof.
  split; [reflexivity|].
  destruct (copy_file_copies_last two_libraries recording_copy "build/*.so" "run" [])
    as [_ Hlast].
  exact (Hlast ["build/a.so"] "build/b.so" eq_refl).
Defined.

(** ** More on iteration and rows *)

Lemma iter_items_top {A : Type} (its : list (TreeItem A)) (c : TreeItem A) :
  In c its -> In c (iter_items its).
Proof.
  induction its as [|item rest IH]; [tauto|].
  rewrite iter_items_cons. intros [->|Hc]; [left; reflexivity|].
  right. apply in_or_app. right. exact (IH Hc).
Qed.

Lemma iter_items_children {A : Type} (its : list (TreeItem A)) :
  forall it c : TreeItem A,
    In it (iter_items its) -> In c (items it) -> In c (iter_items its).
Proof.
  pattern its.
  apply (forest_ind (fun item => forall it c : TreeItem A,
           In it (iter_item item) -> In c (items it) -> In c (iter_item item))).
  - intros it c [].
  - intros item rest Hi Hr it c Hit Hc. simpl in *.
    apply in_app_or in Hit. apply in_or_app.
    destruct Hit as [Hit|Hit]; [left; exact (Hi it c Hit Hc)|right; exact (Hr it c Hit Hc)].
  - intros f l Hl it c Hit Hc. rewrite iter_item_eq in *. cbn [items] in *.
    destruct Hit as [<-|Hit].
    + right. apply iter_items_top. exact Hc.
    + right. exact (Hl it c Hit Hc).
Qed.

(** X17: what iteration reaches.  The top-level items are yielded in
    their order (other items may come in between), every subitem of a
    yielded item is yielded too, and a collection whose items have no
    subitems is iterated as its list of items. *)
Theorem TreeItems_iter_reach {A : Type} (self : TreeItems A) :
  top_items self `sublist_of` TreeItems_iter self
  /\ (forall it c : TreeItem A,
        In it (TreeItems_iter self) -> In c (items it) -> In c (TreeItems_iter self))
  /\ ((forall it, In it (top_items self) -> items it = []) ->
      TreeItems_iter self = top_items self).
Proof.
  unfold TreeItems_iter. split; [|split].
  - induction (top_items self) as [|item rest IH]; [constructor|].
    rewrite iter_items_cons. apply sublist_skip, sublist_inserts_l, IH.
  - apply iter_items_children.
  - induction (top_items self) as [|item rest IH]; [reflexivity|].
    intros Hflat. rewrite iter_items_cons.
    rewrite (Hflat item) by (left; reflexivity). cbn [iter_items app].
    f_equal. apply IH. intros it Hit. apply Hflat. right. exact Hit.
Qed.

Lemma TreeItems_iter_reach_witness :
  (forall it, In it (top_items (mkTreeItems [leaf 0 0 "Red"; leaf 1 0 "Blue"])) -> items it = [])
  /\ TreeItems_iter (mkTreeItems [leaf 0 0 "Red"; leaf 1 0 "Blue"])
     = [leaf 0 0 "Red"; leaf 1 0 "Blue"].
Proof.
  assert (Hflat : forall it,
             In it (top_items (mkTreeItems [leaf 0 0 "Red"; leaf 1 0 "Blue"])) -> items it = []).
  { intros it [<-|[<-|[]]]; reflexivity. }
  split; [exact Hflat|].
  apply (TreeItems_iter_reach (mkTreeItems [leaf 0 0 "Red"; leaf 1 0 "Blue"])), Hflat.
Defined.

Lemma filter_head_in {A : Type} (f : A -> bool) (l : list A) (x : A) (t : list A) :
  List.filter f l = x :: t -> In x l /\ f x = true.
Proof.
  intros H. apply filter_In. rewrite H. left. reflexivity.
Qed.

(** Two lists in ascending order of the key that agree on the items of
    every key, order included, are the same list. *)
Lemma stable_sorted_unique {A : Type} (key : A -> Z) (l1 l2 : list A) :
  StronglySorted (key_le key) l1 -> StronglySorted (key_le key) l2 ->
  (forall c, List.filter (fun y => (key y =? c)%Z) l1
             = List.filter (fun y => (key y =? c)%Z) l2) ->
  l1 = l2.
Proof.
  intros H1. revert l2. induction H1 as [|x l1 Hs1 IH Hx]; intros l2 H2 Heq.
  - destruct l2 as [|y l2]; [reflexivity|].
    specialize (Heq (key y)). cbn [List.filter] in Heq.
    rewrite Z.eqb_refl in Heq. discriminate.
  - destruct H2 as [|y l2 Hs2 Hy].
    + specialize (Heq (key x)). cbn [List.filter] in Heq.
      rewrite Z.eqb_refl in Heq. discriminate.
    + assert (Hxy : y = x).
      { pose proof (Heq (key x)) as Hk. cbn [List.filter] in Hk.
        rewrite Z.eqb_refl in Hk.
        destruct (key y =? key x)%Z eqn:Hyx; [now injection Hk|].
        apply Z.eqb_neq in Hyx. symmetry in Hk.
        apply filter_head_in in Hk. destruct Hk as [Hin2 _].
        rewrite Forall_forall in Hy. apply list_elem_of_In, Hy in Hin2.
        pose proof (Heq (key y)) as Hk'. cbn [List.filter] in Hk'.
        rewrite Z.eqb_refl in Hk'.
        destruct (key x =? key y)%Z eqn:Hxy'; [apply Z.eqb_eq in Hxy'; lia|].
        apply filter_head_in in Hk'. destruct Hk' as [Hin1 _].
        rewrite Forall_forall in Hx. apply list_elem_of_In, Hx in Hin1.
        unfold key_le in *. lia. }
      subst y. f_equal. apply IH; [exact Hs2|].
      intros c. specialize (Heq c). cbn [List.filter] in Heq.
      destruct (key x =? c)%Z; [now injection Heq|exact Heq].
Qed.

(** X16: the order inside a returned row.  Besides ascending on the
    column, the row keeps the order of the level among the items of one
    column: for every column, the items of the row with that column are the
    items of the level on the matched row with that column, in the order of
    the level.  With the two facts the row is determined by the level. *)
Theorem row_of_stable (level : list ModelItem) (item_ : ModelItem) (k : Z) :
  List.filter (fun it => (column (fields it) =? k)%Z) (row_of level item_)
  = List.filter (fun it => (column (fields it) =? k)%Z)
      (List.filter (fun it => (row (fields it) =? row (fields item_))%Z) level)
  /\ forall other : list ModelItem,
       other ≡ₚ List.filter (fun it => (row (fields it) =? row (fields item_))%Z) level ->
       StronglySorted (key_le (fun it => column (fields it))) other ->
       (forall c, List.filter (fun it => (column (fields it) =? c)%Z) other
                  = List.filter (fun it => (column (fields it) =? c)%Z)
                      (List.filter (fun it => (row (fields it) =? row (fields item_))%Z) level)) ->
       other = row_of level item_.
Proof.
  split; [apply sorted_stable|].
  intros other _ Hsorted Hstable. unfold row_of.
  apply (stable_sorted_unique (fun it => column (fields it)));
    [exact Hsorted|apply sorted_StronglySorted|].
  intros c. rewrite Hstable. symmetry. apply sorted_stable.
Qed.

Lemma row_of_stable_witness :
  [leaf 0 0 "B"; leaf 0 1 "X"]
    ≡ₚ List.filter (fun it => (row (fields it) =? row (fields (leaf 0 0 "B")))%Z)
         [leaf 0 1 "X"; leaf 1 0 "C"; leaf 0 0 "B"]
  /\ StronglySorted (key_le (fun it => column (fields it))) [leaf 0 0 "B"; leaf 0 1 "X"]
  /\ [leaf 0 0 "B"; leaf 0 1 "X"]
     = row_of [leaf 0 1 "X"; leaf 1 0 "C"; leaf 0 0 "B"] (leaf 0 0 "B").
Proof.
  assert (Hperm : [leaf 0 0 "B"; leaf 0 1 "X"]
            ≡ₚ List.filter (fun it => (row (fields it) =? row (fields (leaf 0 0 "B")))%Z)
                 [leaf 0 1 "X"; leaf 1 0 "C"; leaf 0 0 "B"]).
  { simpl. apply perm_swap. }
  assert (Hsorted : StronglySorted (key_le (fun it => column (fields it)))
                      [leaf 0 0 "B"; leaf 0 1 "X"]).
  { repeat constructor. unfold key_le. simpl. lia. }
  split; [exact Hperm|]. split; [exact Hsorted|].
  destruct (row_of_stable [leaf 0 1 "X"; leaf 1 0 "C"; leaf 0 0 "B"] (leaf 0 0 "B") 0)
    as [_ Hunique].
  apply Hunique; [exact Hperm|exact Hsorted|].
  intros c. destruct c as [|[p|p|]|p]; reflexivity.
Defined.
